(** * Shallow embedding of the IMAP command executor of forwardemail.net

    Files embedded:
    - [src/helpers/imap/on-expunge.js] ([onExpunge], both roles)
    - [src/helpers/on-close.js] ([onUnsubscribe], both roles)
    - [src/unnamed/part_002] (the SQLite backend: [wss.broadcast],
      [authenticate] with the upgrade handler, the [ws.on('message')] handler)

    The asynchronous JavaScript is modelled as a state and exception monad.
    Every awaited call of a collaborator is an [Op]; a [World] decides which
    of them throw. The state holds the rows of the account's database,
    its mailboxes, the change journal and a chronological trace of
    observable events (calls, log lines, queued writes, the protocol
    callback). *)

From Stdlib Require Import List String Ascii Bool Arith Lia.
From Stdlib Require Import Sorting.Sorted Sorting.Permutation.
From Stdlib Require Import ZArith.
Import ListNotations.

Module Imap.

(** ** Data model *)

(** A row of the [Messages] table (after [convertResult]). *)
Record Message := mkMessage {
  m_id : nat;
  m_mailbox : nat;
  m_uid : nat;
  m_undeleted : bool;
  (** [message.mimeTree.attachmentMap], [None] when absent *)
  m_attachmentMap : option (list (string * nat));
  m_magic : nat;
  m_thread : nat;
  m_unseen : bool;
  m_idate : nat
}.

Record Mailbox := mkMailbox {
  mb_id : nat;
  mb_path : string;
  mb_subscribed : bool
}.

(** An error object; [imapResponse] is the protocol response code. *)
Record IMAPError := mkIMAPError {
  err_message : string;
  imapResponse : option string
}.

Record Update := mkUpdate {
  isUid : bool;
  messages : list nat;
  silent : bool
}.

Record Session := mkSession {
  s_id : nat;
  alias_id : nat;
  (** [session.selected.mailbox], [None] when nothing is selected *)
  selected : option nat
}.

(** The token returned by [acquireLock]. *)
Record Lock := mkLock {
  lock_success : bool;
  lock_key : nat
}.

(** A protocol write: an array [['EXPUNGE', uid]] formatted by
    [session.formatResponse], or a raw string. *)
Inductive WriteItem :=
| WFormat (command : string) (uid : nat)
| WRaw (raw : string).

(** The entry passed to [notifier.addEntries]. *)
Record ChangeEntry := mkChangeEntry {
  ce_ignore : nat;
  ce_command : string;
  ce_uid : nat;
  ce_mailbox : nat;
  ce_message : nat;
  ce_thread : nat;
  ce_unseen : bool;
  ce_idate : nat
}.

(** The awaited calls of the executor. *)
Inductive Op :=
| OpRefresh                              (* this.refreshSession *)
| OpFindMailbox                          (* Mailboxes.findOne *)
| OpAcquire                              (* acquireLock *)
| OpSelect                               (* the prepared select, local or over wsp *)
| OpDeleteOne (id uid : nat)             (* Messages.deleteOne *)
| OpDeleteMany (id : nat) (ids : list nat) (* attachmentStorage.deleteMany *)
| OpAddEntries (uid : nat)               (* server.notifier.addEntries *)
| OpFire (alias : nat)                   (* server.notifier.fire *)
| OpRelease                              (* releaseLock *)
| OpSize                                 (* wsp.request({action: 'size'}) *)
| OpRpc                                  (* wsp.request of the front-end *)
| OpFindOneAndUpdate.                    (* Mailboxes.findOneAndUpdate *)

(** What the protocol callback [fn] receives:
    [fn(null, b, writes)], [fn(null, code)] or [fn(err)]. *)
Inductive Response :=
| RespOk (b : bool) (writes : list WriteItem)
| RespCode (code : string)
| RespErr (e : IMAPError).

Inductive Event :=
| EvCall (op : Op)
| EvLog (e : IMAPError)
| EvQueue (w : WriteItem)          (* writeStream.push *)
| EvSocketWrite (w : WriteItem)    (* session.writeStream.write *)
| EvCallback (r : Response).

(** The collaborators' behaviour: which calls throw, the lock token
    handed out, and the front-end's RPC replies. *)
Record World := mkWorld {
  fail : Op -> option IMAPError;
  acquired_lock : Lock;
  rpc_expunge_reply : bool * option (list WriteItem);
  rpc_unsubscribe_reply : bool
}.

Record St := mkSt {
  db : list Message;
  mailboxes : list Mailbox;
  entries : list ChangeEntry;
  trace : list Event
}.

Inductive Result (A : Type) :=
| Ok (a : A)
| Err (e : IMAPError).
Arguments Ok {A} a.
Arguments Err {A} e.

Definition M (A : Type) := St -> Result A * St.

Definition ret {A} (a : A) : M A := fun s => (Ok a, s).

Definition bind {A B} (m : M A) (k : A -> M B) : M B := fun s =>
  match m s with
  | (Ok a, s') => k a s'
  | (Err e, s') => (Err e, s')
  end.

Notation "x <- m ;; k" := (bind m (fun x => k))
  (at level 61, m at next level, right associativity).
Notation "m ;; k" := (bind m (fun _ => k))
  (at level 61, right associativity).

Definition throw {A} (e : IMAPError) : M A := fun s => (Err e, s).

(** [try { m } catch (err) { h(err) }] *)
Definition try_catch {A} (m : M A) (h : IMAPError -> M A) : M A := fun s =>
  match m s with
  | (Ok a, s') => (Ok a, s')
  | (Err e, s') => h e s'
  end.

(** Run [m] and capture its outcome (the [let err; try ... catch (_err)]
    idiom). *)
Definition attempt {A} (m : M A) : M (Result A) := fun s =>
  let (r, s') := m s in (Ok r, s').

Definition emit (ev : Event) : M unit := fun s =>
  (Ok tt, mkSt (db s) (mailboxes s) (entries s) (trace s ++ [ev])).

Definition gets {A} (f : St -> A) : M A := fun s => (Ok (f s), s).

Definition set_db (d : list Message) : M unit := fun s =>
  (Ok tt, mkSt d (mailboxes s) (entries s) (trace s)).

Definition set_mailboxes (l : list Mailbox) : M unit := fun s =>
  (Ok tt, mkSt (db s) l (entries s) (trace s)).

Definition append_entry (ce : ChangeEntry) : M unit := fun s =>
  (Ok tt, mkSt (db s) (mailboxes s) (entries s ++ [ce]) (trace s)).

Definition log_fatal (e : IMAPError) : M unit := emit (EvLog e).

(** JavaScript truthiness of [err.imapResponse]. *)
Definition imap_code (e : IMAPError) : option string :=
  match imapResponse e with
  | Some c => if String.eqb c "" then None else Some c
  | None => None
  end.

(** Modelled from the spec: [refineAndLogError] ([#helpers/refine-and-log-error],
    not in the sources) logs the error with its context and surfaces it
    to the caller; the error, with its response code, is passed on. *)
Definition refineAndLogError (e : IMAPError) : IMAPError := e.

Definition nonexistent : IMAPError :=
  mkIMAPError "IMAP_MAILBOX_DOES_NOT_EXIST" (Some "NONEXISTENT"%string).

(** ** Queries *)

(** The select condition built at lines 86-91: [checkRangeQuery] of the
    client's UID set matches exactly the UIDs of that set. *)
Record Condition := mkCondition {
  c_mailbox : nat;
  c_undeleted : bool;
  c_uid : option (list nat)
}.

Definition expunge_condition (mb : Mailbox) (upd : Update) : Condition :=
  mkCondition (mb_id mb) false (if isUid upd then Some (messages upd) else None).

Definition matches (c : Condition) (m : Message) : bool :=
  (m_mailbox m =? c_mailbox c) && Bool.eqb (m_undeleted m) (c_undeleted c)
  && match c_uid c with
     | None => true
     | Some uids => existsb (Nat.eqb (m_uid m)) uids
     end.

(** [ORDER BY uid] *)
Fixpoint insert_by_uid (m : Message) (l : list Message) : list Message :=
  match l with
  | [] => [m]
  | x :: l' => if m_uid m <=? m_uid x then m :: l else x :: insert_by_uid m l'
  end.

Fixpoint sort_by_uid (l : list Message) : list Message :=
  match l with
  | [] => []
  | x :: l' => insert_by_uid x (sort_by_uid l')
  end.

(** [SELECT * FROM Messages WHERE condition ORDER BY uid] *)
Definition select_rows (c : Condition) (rows : list Message) : list Message :=
  sort_by_uid (filter (matches c) rows).

(** [Messages.deleteOne({_id, mailbox, uid})]: removes the first matching
    row and reports [deletedCount]. *)
Fixpoint delete_first (p : Message -> bool) (l : list Message) : nat * list Message :=
  match l with
  | [] => (0, [])
  | x :: l' =>
      if p x then (1, l')
      else let (n, r) := delete_first p l' in (n, x :: r)
  end.

Definition row_key (id mbid uid : nat) (m : Message) : bool :=
  (m_id m =? id) && (m_mailbox m =? mbid) && (m_uid m =? uid).

Definition attachment_ids (m : Message) : list nat :=
  match m_attachmentMap m with
  | Some amap => map snd amap
  | None => []
  end.

Definition selected_is (sess : Session) (mb : Mailbox) : bool :=
  match selected sess with
  | Some x => x =? mb_id mb
  | None => false
  end.

Section Executor.

Variable w : World.

(** An awaited call: recorded, and throwing when the world says so. *)
Definition call (op : Op) : M unit :=
  emit (EvCall op) ;;
  match fail w op with
  | Some e => throw e
  | None => ret tt
  end.

Definition find_mailbox (mailboxId : nat) : M (option Mailbox) :=
  call OpFindMailbox ;;
  gets (fun s => find (fun mb => mb_id mb =? mailboxId) (mailboxes s)).

Definition delete_one (m : Message) (mb : Mailbox) : M nat :=
  call (OpDeleteOne (m_id m) (m_uid m)) ;;
  d <- gets (fun s => delete_first (row_key (m_id m) (mb_id mb) (m_uid m)) (db s)) ;;
  set_db (snd d) ;;
  ret (fst d).

Definition expunge_entry (sess : Session) (mb : Mailbox) (m : Message) : ChangeEntry :=
  mkChangeEntry (s_id sess) "EXPUNGE" (m_uid m) (mb_id mb) (m_id m)
    (m_thread m) (m_unseen m) (m_idate m).

(** One iteration of the [for (const result of messages)] loop (lines 124-241). *)
Definition expunge_message (upd : Update) (sess : Session) (mb : Mailbox)
  (ws : list WriteItem) (m : Message) : M (list WriteItem) :=
  cnt <- delete_one m mb ;;
  if cnt =? 1 then
    (match attachment_ids m with
     | [] => ret tt
     | ids => try_catch (call (OpDeleteMany (m_id m) ids)) log_fatal
     end) ;;
    ws' <- (if negb (silent upd) || selected_is sess mb then
              emit (EvQueue (WFormat "EXPUNGE" (m_uid m))) ;;
              ret (ws ++ [WFormat "EXPUNGE" (m_uid m)])
            else ret ws) ;;
    try_catch (call (OpAddEntries (m_uid m)) ;;
               append_entry (expunge_entry sess mb m) ;;
               call (OpFire (alias_id sess)))
              log_fatal ;;
    ret ws'
  else ret ws.

Fixpoint expunge_messages (upd : Update) (sess : Session) (mb : Mailbox)
  (msgs : list Message) (ws : list WriteItem) : M (list WriteItem) :=
  match msgs with
  | [] => ret ws
  | m :: rest =>
      ws' <- expunge_message upd sess mb ws m ;;
      expunge_messages upd sess mb rest ws'
  end.

(** The block run under the lock (lines 101-242). *)
Definition expunge_locked (upd : Update) (sess : Session) (mb : Mailbox)
  : M (list WriteItem) :=
  call OpSelect ;;
  msgs <- gets (fun s => select_rows (expunge_condition mb upd) (db s)) ;;
  expunge_messages upd sess mb msgs [].

Definition release_logged : M unit := try_catch (call OpRelease) log_fatal.

Definition size_logged : M unit := try_catch (call OpSize) log_fatal.

(** The outer [catch (err)] of [onExpunge] (lines 288-305). *)
Definition expunge_fail (lock : option Lock) (e : IMAPError) : M unit :=
  (match lock with
   | Some l => if lock_success l then release_logged else ret tt
   | None => ret tt
   end) ;;
  match imap_code e with
  | Some c => log_fatal e ;; emit (EvCallback (RespCode c))
  | None => emit (EvCallback (RespErr (refineAndLogError e)))
  end.

(** Lines 68-80: refresh the session and resolve the mailbox. *)
Definition expunge_resolve (mailboxId : nat) : M Mailbox :=
  call OpRefresh ;;
  mbo <- find_mailbox mailboxId ;;
  match mbo with
  | None => throw nonexistent
  | Some mb => ret mb
  end.

(** Line 97: [lock = await acquireLock(this, session.db)]. *)
Definition expunge_acquire : M Lock :=
  call OpAcquire ;; ret (acquired_lock w).

(** [onExpunge] in backend mode (lines 68-287). The statements that
    cannot throw in the source (the release and the size request are
    wrapped in their own try/catch) are sequenced after the captured
    outcome of the locked block, as in the source. *)
Definition onExpunge_backend (mailboxId : nat) (upd : Update) (sess : Session) : M unit :=
  r <- attempt (expunge_resolve mailboxId) ;;
  match r with
  | Err e => expunge_fail None e
  | Ok mb =>
      rl <- attempt expunge_acquire ;;
      match rl with
      | Err e => expunge_fail None e
      | Ok lock =>
          rb <- attempt (expunge_locked upd sess mb) ;;
          release_logged ;;
          size_logged ;;
          match rb with
          | Err e => expunge_fail (Some lock) e
          | Ok ws => emit (EvCallback (RespOk true ws))
          end
      end
  end.

(** Replay of the writes returned by the backend (lines 50-58). *)
Definition replay (wso : option (list WriteItem)) : M unit :=
  match wso with
  | None => ret tt
  | Some ws => fold_right (fun x k => emit (EvSocketWrite x) ;; k) (ret tt) ws
  end.

(** [onExpunge] in front-end mode (lines 36-66). *)
Definition onExpunge_delegate (mailboxId : nat) (upd : Update) (sess : Session) : M unit :=
  r <- attempt (call OpRpc ;; ret (rpc_expunge_reply w)) ;;
  match r with
  | Ok (b, wso) => replay wso ;; emit (EvCallback (RespOk b []))
  | Err e => emit (EvCallback (RespErr e))
  end.

(** [this?.constructor?.name === 'IMAP'] selects the role. *)
Definition onExpunge (is_imap : bool) (mailboxId : nat) (upd : Update) (sess : Session) : M unit :=
  if is_imap then onExpunge_delegate mailboxId upd sess
  else onExpunge_backend mailboxId upd sess.

(** [Mailboxes.findOneAndUpdate({path}, {$set: {subscribed: false}})] *)
Fixpoint unsubscribe_first (path : string) (l : list Mailbox) : option Mailbox * list Mailbox :=
  match l with
  | [] => (None, [])
  | mb :: l' =>
      if String.eqb (mb_path mb) path then
        let mb' := mkMailbox (mb_id mb) (mb_path mb) false in (Some mb', mb' :: l')
      else let (r, l'') := unsubscribe_first path l' in (r, mb :: l'')
  end.

Definition find_one_and_update (path : string) : M (option Mailbox) :=
  call OpFindOneAndUpdate ;;
  r <- gets (fun s => unsubscribe_first path (mailboxes s)) ;;
  set_mailboxes (snd r) ;;
  ret (fst r).

(** [onUnsubscribe] in front-end mode (lines 77-95). *)
Definition onUnsubscribe_delegate (path : string) (sess : Session) : M unit :=
  r <- attempt (call OpRpc ;; ret (rpc_unsubscribe_reply w)) ;;
  match r with
  | Ok b => emit (EvCallback (RespOk b []))
  | Err e =>
      match imap_code e with
      | Some c => emit (EvCallback (RespCode c))
      | None => emit (EvCallback (RespErr e))
      end
  end.

(** [onUnsubscribe] in backend mode (lines 97-124). *)
Definition onUnsubscribe_backend (path : string) (sess : Session) : M unit :=
  r <- attempt (call OpRefresh ;;
                mbo <- find_one_and_update path ;;
                match mbo with
                | None => throw nonexistent
                | Some _ => ret tt
                end) ;;
  match r with
  | Ok _ => emit (EvCallback (RespOk true []))
  | Err e => emit (EvCallback (RespErr (refineAndLogError e)))
  end.

(** [if (this.wsp)] selects the role. *)
Definition onUnsubscribe (has_wsp : bool) (path : string) (sess : Session) : M unit :=
  if has_wsp then onUnsubscribe_delegate path sess
  else onUnsubscribe_backend path sess.

End Executor.

(** ** Observations on traces *)

(** Calls whose failure is not caught at the call site. *)
Definition fatal_op (op : Op) : bool :=
  match op with
  | OpDeleteMany _ _ | OpAddEntries _ | OpFire _ | OpRelease | OpSize => false
  | _ => true
  end.

(** The first error thrown out of a call site in a run. *)
Fixpoint first_fatal_error (w : World) (t : list Event) : option IMAPError :=
  match t with
  | [] => None
  | EvCall op :: t' =>
      if fatal_op op then
        match fail w op with
        | Some e => Some e
        | None => first_fatal_error w t'
        end
      else first_fatal_error w t'
  | _ :: t' => first_fatal_error w t'
  end.

(** The writes pushed to [writeStream]. *)
Fixpoint queued (t : list Event) : list WriteItem :=
  match t with
  | [] => []
  | EvQueue x :: t' => x :: queued t'
  | _ :: t' => queued t'
  end.

Definition count_ev (p : Event -> bool) (t : list Event) : nat :=
  List.length (filter p t).

Definition is_call (op : Op) (ev : Event) : bool :=
  match ev, op with
  | EvCall OpAcquire, OpAcquire => true
  | EvCall OpRelease, OpRelease => true
  | EvCall (OpFire a), OpFire b => a =? b
  | _, _ => false
  end.

(** Events the locked block may produce. *)
Definition body_event (ev : Event) : bool :=
  match ev with
  | EvCall (OpSelect | OpDeleteOne _ _ | OpDeleteMany _ _ | OpAddEntries _ | OpFire _)
  | EvLog _ | EvQueue _ => true
  | _ => false
  end.

(** What the outer catch hands to the callback. *)
Definition expunge_error_response (e : IMAPError) : Response :=
  match imap_code e with
  | Some c => RespCode c
  | None => RespErr (refineAndLogError e)
  end.

(** Events of a best-effort release or of the outer catch. *)
Definition release_or_log (ev : Event) : bool :=
  match ev with
  | EvCall OpRelease | EvLog _ => true
  | _ => false
  end.

Definition wexp (m : Message) : WriteItem := WFormat "EXPUNGE" (m_uid m).

Inductive Sublist {A : Type} : list A -> list A -> Prop :=
| sublist_nil : Sublist [] []
| sublist_skip x l1 l2 : Sublist l1 l2 -> Sublist l1 (x :: l2)
| sublist_take x l1 l2 : Sublist l1 l2 -> Sublist (x :: l1) (x :: l2).

Definition uid_le (a b : Message) : Prop := m_uid a <= m_uid b.

Definition gc_events (m : Message) : list Event :=
  match attachment_ids m with
  | [] => []
  | ids => [EvCall (OpDeleteMany (m_id m) ids)]
  end.

Definition expunge_writes (upd : Update) (sess : Session) (mb : Mailbox) (m : Message)
  : list WriteItem :=
  if negb (silent upd) || selected_is sess mb then [WFormat "EXPUNGE" (m_uid m)] else [].

Definition write_uid (x : WriteItem) : nat :=
  match x with
  | WFormat _ u => u
  | WRaw _ => 0
  end.

Definition write_le (a b : WriteItem) : Prop := write_uid a <= write_uid b.



(** ** Concrete inputs *)

Definition ex_mailbox : Mailbox := mkMailbox 1 "INBOX" true.

Definition ex_message (id uid : nat) (undeleted : bool)
  (amap : option (list (string * nat))) : Message :=
  mkMessage id 1 uid undeleted amap 0 0 false 0.

Definition ex_msg5 : Message := ex_message 21 5 false None.
Definition ex_msg9 : Message := ex_message 20 9 false (Some [("part1"%string, 100)]).

(** Rows in insertion order (UID 9 first); the row at UID 7 is not deleted. *)
Definition ex_state : St :=
  mkSt [ex_msg9; ex_msg5; ex_message 22 7 true None] [ex_mailbox] [] [].

Definition ex_session : Session := mkSession 3 4 None.

Definition ex_update (silent : bool) : Update := mkUpdate false [] silent.

Definition ex_world (f : Op -> option IMAPError) : World :=
  mkWorld f (mkLock true 7) (true, None) true.

Definition ex_error : IMAPError := mkIMAPError "storage unavailable" None.

Definition no_failure (op : Op) : option IMAPError := None.

Definition ex_world_reply (reply : bool * option (list WriteItem)) : World :=
  mkWorld no_failure (mkLock true 7) reply true.

Definition delete_one_fails (op : Op) : option IMAPError :=
  match op with OpDeleteOne _ _ => Some ex_error | _ => None end.

Definition delete_many_fails (op : Op) : option IMAPError :=
  match op with OpDeleteMany _ _ => Some ex_error | _ => None end.

Definition rpc_nonexistent (op : Op) : option IMAPError :=
  match op with OpRpc => Some nonexistent | _ => None end.

Lemma first_fatal_error_app w t1 t2 :
  first_fatal_error w (t1 ++ t2) =
  match first_fatal_error w t1 with
  | Some e => Some e
  | None => first_fatal_error w t2
  end.
Proof.
  induction t1 as [|ev t1 IH]; simpl; auto.
  destruct ev as [op| | | |]; auto.
  destruct (fatal_op op); auto.
  destruct (fail w op); auto.
Qed.

Lemma queued_app t1 t2 : queued (t1 ++ t2) = queued t1 ++ queued t2.
Proof.
  induction t1 as [|ev t1 IH]; simpl; auto.
  destruct ev; simpl; rewrite ?IH; auto.
Qed.

Ltac list_norm := repeat progress (simpl; rewrite <- ?app_assoc).

Ltac trace_ext := eexists; split; [rewrite <- ?app_assoc; reflexivity|].

Lemma expunge_message_trace w upd sess mb ws m s :
  let (r, s') := expunge_message w upd sess mb ws m s in
  exists d, trace s' = trace s ++ d /\ forallb body_event d = true /\
  match r with
  | Err e => first_fatal_error w d = Some e
  | Ok ws' => first_fatal_error w d = None /\ ws' = ws ++ queued d
  end.
Proof.
  unfold expunge_message, delete_one, call, bind, emit, gets, set_db, ret, throw.
  simpl.
  destruct (fail w (OpDeleteOne (m_id m) (m_uid m))) as [e|] eqn:Hd; simpl.
  { trace_ext. simpl. rewrite Hd. auto. }
  destruct (fst (delete_first _ _) =? 1); simpl.
  2:{ trace_ext. simpl. rewrite Hd. rewrite app_nil_r. auto. }
  unfold try_catch, log_fatal, emit, append_entry; simpl.
  destruct (attachment_ids m) as [|i ids]; simpl;
  [|destruct (fail w (OpDeleteMany (m_id m) (i :: ids))) eqn:Hm; simpl];
  (destruct (negb (silent upd) || selected_is sess mb); simpl);
  (destruct (fail w (OpAddEntries (m_uid m))) eqn:Ha; simpl;
   [|destruct (fail w (OpFire (alias_id sess))) eqn:Hf; simpl]);
  trace_ext; simpl; rewrite ?Hd, ?Hm, ?Ha, ?Hf; simpl; rewrite ?app_nil_r; auto.
Qed.

Lemma expunge_messages_trace w upd sess mb msgs ws s :
  let (r, s') := expunge_messages w upd sess mb msgs ws s in
  exists d, trace s' = trace s ++ d /\ forallb body_event d = true /\
  match r with
  | Err e => first_fatal_error w d = Some e
  | Ok ws' => first_fatal_error w d = None /\ ws' = ws ++ queued d
  end.
Proof.
  revert ws s; induction msgs as [|m msgs IH]; intros ws s; simpl.
  { exists []. simpl. rewrite !app_nil_r. repeat split. }
  unfold bind.
  pose proof (expunge_message_trace w upd sess mb ws m s) as Hs.
  destruct (expunge_message w upd sess mb ws m s) as [[ws1|e] s1].
  - destruct Hs as (d1 & Ht1 & Hb1 & Hf1 & Hq1).
    specialize (IH ws1 s1).
    destruct (expunge_messages w upd sess mb msgs ws1 s1) as [r s2].
    destruct IH as (d2 & Ht2 & Hb2 & Hr2).
    exists (d1 ++ d2). rewrite Ht2, Ht1, app_assoc. split; auto.
    rewrite forallb_app, Hb1, Hb2. split; auto.
    rewrite first_fatal_error_app, Hf1.
    destruct r; auto.
    destruct Hr2 as [? ->]. rewrite Hq1, queued_app, app_assoc. auto.
  - destruct Hs as (d1 & Ht1 & Hb1 & Hf1). exists d1. auto.
Qed.

Lemma expunge_locked_trace w upd sess mb s :
  let (r, s') := expunge_locked w upd sess mb s in
  exists d, trace s' = trace s ++ d /\ forallb body_event d = true /\
  match r with
  | Err e => first_fatal_error w d = Some e
  | Ok ws => first_fatal_error w d = None /\ ws = queued d
  end.
Proof.
  unfold expunge_locked, call, bind, emit, gets, ret, throw; simpl.
  destruct (fail w OpSelect) as [e|] eqn:Hs; simpl.
  { trace_ext. simpl. rewrite Hs. auto. }
  match goal with
  | |- context [expunge_messages w upd sess mb ?l [] ?s1] =>
      pose proof (expunge_messages_trace w upd sess mb l [] s1) as H;
      destruct (expunge_messages w upd sess mb l [] s1) as [r s2]
  end.
  destruct H as (d & Ht & Hb & Hr). simpl in Ht.
  exists (EvCall OpSelect :: d). rewrite Ht, <- app_assoc. split; auto.
  simpl. rewrite Hs. split; [exact Hb|]. destruct r; auto.
Qed.

Lemma expunge_resolve_trace w mailboxId s :
  let (r, s') := expunge_resolve w mailboxId s in
  db s' = db s /\ entries s' = entries s /\
  (exists d, trace s' = trace s ++ d /\
     forall ev, In ev d -> ev = EvCall OpRefresh \/ ev = EvCall OpFindMailbox) /\
  (fail w OpRefresh = None -> fail w OpFindMailbox = None ->
   match find (fun mb => mb_id mb =? mailboxId) (mailboxes s) with
   | Some mb => r = Ok mb
   | None => r = Err nonexistent
   end).
Proof.
  unfold expunge_resolve, find_mailbox, call, bind, emit, gets, ret, throw; simpl.
  destruct (fail w OpRefresh) as [e|] eqn:H1; simpl.
  { repeat split; auto.
    - trace_ext. intros ev [<-|[]]; auto.
    - discriminate. }
  destruct (fail w OpFindMailbox) as [e|] eqn:H2; simpl.
  { repeat split; auto.
    - trace_ext. simpl. intros ev [<-|[<-|[]]]; auto.
    - discriminate. }
  destruct (find _ _) as [mb|] eqn:Hf; simpl;
  (repeat split; auto; [trace_ext; simpl; intros ev [<-|[<-|[]]]; auto]).
Qed.

Lemma expunge_acquire_ok w s :
  fail w OpAcquire = None ->
  expunge_acquire w s =
  (Ok (acquired_lock w), mkSt (db s) (mailboxes s) (entries s) (trace s ++ [EvCall OpAcquire])).
Proof.
  intros H. unfold expunge_acquire, call, bind, emit, ret; simpl. rewrite H. reflexivity.
Qed.

Lemma release_logged_trace w s :
  let (r, s') := release_logged w s in
  r = Ok tt /\ db s' = db s /\ entries s' = entries s /\
  exists d, trace s' = trace s ++ EvCall OpRelease :: d /\ forallb release_or_log d = true
            /\ (fail w OpRelease = None -> d = []).
Proof.
  unfold release_logged, try_catch, log_fatal, call, bind, emit, ret, throw; simpl.
  destruct (fail w OpRelease) eqn:H; simpl; (repeat split; auto);
  [exists [EvLog i] | exists []]; rewrite <- ?app_assoc; simpl; repeat split; auto;
  discriminate.
Qed.

Lemma size_logged_trace w s :
  let (r, s') := size_logged w s in
  r = Ok tt /\ db s' = db s /\ entries s' = entries s /\
  exists d, trace s' = trace s ++ EvCall OpSize :: d /\
            (forall ev, In ev d -> exists e, ev = EvLog e)
            /\ (fail w OpSize = None -> d = []).
Proof.
  unfold size_logged, try_catch, log_fatal, call, bind, emit, ret, throw; simpl.
  destruct (fail w OpSize) eqn:H; simpl; (repeat split; auto);
  [exists [EvLog i] | exists []]; rewrite <- ?app_assoc; simpl; repeat split; auto;
  try discriminate.
  - intros ev [<-|[]]. eauto.
  - intros ev [].
Qed.

Lemma expunge_fail_trace w lock e s :
  let (r, s') := expunge_fail w lock e s in
  r = Ok tt /\ db s' = db s /\ entries s' = entries s /\
  exists d, trace s' = trace s ++ d ++ [EvCallback (expunge_error_response e)] /\
            forallb release_or_log d = true.
Proof.
  assert (Htail : forall s1 d,
    trace s1 = trace s ++ d -> forallb release_or_log d = true ->
    db s1 = db s -> entries s1 = entries s ->
    let (r, s') := (match imap_code e with
                    | Some c => log_fatal e ;; emit (EvCallback (RespCode c))
                    | None => emit (EvCallback (RespErr (refineAndLogError e)))
                    end) s1 in
    r = Ok tt /\ db s' = db s /\ entries s' = entries s /\
    exists d, trace s' = trace s ++ d ++ [EvCallback (expunge_error_response e)] /\
              forallb release_or_log d = true).
  { intros s1 d Ht Hd Hdb Hen.
    unfold expunge_error_response, log_fatal, emit, bind; simpl.
    destruct (imap_code e) as [c|]; simpl; (repeat split; auto).
    - exists (d ++ [EvLog e]). rewrite Ht, <- !app_assoc. split; auto.
      rewrite forallb_app, Hd. reflexivity.
    - exists d. rewrite Ht, <- !app_assoc. auto. }
  unfold expunge_fail, bind at 1.
  destruct lock as [l|]; [destruct (lock_success l)|].
  - pose proof (release_logged_trace w s) as H.
    destruct (release_logged w s) as [r s1].
    destruct H as (-> & Hdb & Hen & d & Ht & Hd & _).
    apply (Htail s1 (EvCall OpRelease :: d)); auto.
  - apply (Htail s []); rewrite ?app_nil_r; auto.
  - apply (Htail s []); rewrite ?app_nil_r; auto.
Qed.

Lemma not_in_release_or_log ev d :
  forallb release_or_log d = true -> release_or_log ev = false -> ~ In ev d.
Proof.
  intros Hd Hev Hin. rewrite forallb_forall in Hd. rewrite (Hd ev Hin) in Hev. discriminate.
Qed.

Lemma not_in_body_event ev d :
  forallb body_event d = true -> body_event ev = false -> ~ In ev d.
Proof.
  intros Hd Hev Hin. rewrite forallb_forall in Hd. rewrite (Hd ev Hin) in Hev. discriminate.
Qed.

Lemma expunge_message_shape w upd sess mb ws m s :
  let (r, s') := expunge_message w upd sess mb ws m s in
  exists d, trace s' = trace s ++ EvCall (OpDeleteOne (m_id m) (m_uid m)) :: d /\
  (queued d = [] \/ queued d = [wexp m]) /\
  ((exists ids, In (EvCall (OpDeleteMany (m_id m) ids)) d) ->
   fst (delete_first (row_key (m_id m) (mb_id mb) (m_uid m)) (db s)) = 1).
Proof.
  unfold expunge_message, delete_one, call, bind, emit, gets, set_db, ret, throw.
  simpl.
  destruct (fail w (OpDeleteOne (m_id m) (m_uid m))) as [e|] eqn:Hd; simpl.
  { exists []. split; [reflexivity|]. split; auto. intros [ids []]. }
  destruct (fst (delete_first _ _) =? 1) eqn:Hc; simpl.
  2:{ exists []. split; [reflexivity|]. split; auto. intros [ids []]. }
  apply Nat.eqb_eq in Hc.
  unfold try_catch, log_fatal, emit, append_entry; simpl.
  destruct (attachment_ids m) as [|i ids]; simpl;
  [|destruct (fail w (OpDeleteMany (m_id m) (i :: ids))) eqn:Hm; simpl];
  (destruct (negb (silent upd) || selected_is sess mb); simpl);
  (destruct (fail w (OpAddEntries (m_uid m))) eqn:Ha; simpl;
   [|destruct (fail w (OpFire (alias_id sess))) eqn:Hf; simpl]);
  (eexists; split; [rewrite <- ?app_assoc; reflexivity|]);
  simpl; (split; [auto|intros _; exact Hc]).
Qed.

Lemma expunge_message_gc_logged w upd sess mb ws m s :
  let (_, s') := expunge_message w upd sess mb ws m s in
  exists d, trace s' = trace s ++ d /\
  forall ids e, fail w (OpDeleteMany (m_id m) ids) = Some e ->
    In (EvCall (OpDeleteMany (m_id m) ids)) d -> In (EvLog e) d.
Proof.
  unfold expunge_message, delete_one, call, bind, emit, gets, set_db, ret, throw.
  simpl.
  destruct (fail w (OpDeleteOne (m_id m) (m_uid m))) as [e|] eqn:Hd; simpl.
  { eexists. split; [reflexivity|]. intros ids e' _ [H|[]]; discriminate. }
  destruct (fst (delete_first _ _) =? 1) eqn:Hc; simpl.
  2:{ eexists. split; [reflexivity|]. intros ids e' _ [H|[]]; discriminate. }
  unfold try_catch, log_fatal, emit, append_entry; simpl.
  destruct (attachment_ids m) as [|i ids]; simpl;
  [|destruct (fail w (OpDeleteMany (m_id m) (i :: ids))) as [em|] eqn:Hm; simpl];
  (destruct (negb (silent upd) || selected_is sess mb); simpl);
  (destruct (fail w (OpAddEntries (m_uid m))) eqn:Ha; simpl;
   [|destruct (fail w (OpFire (alias_id sess))) eqn:Hf; simpl]);
  (eexists; split; [rewrite <- ?app_assoc; reflexivity|]);
  intros ids0 e0 Hfe Hin; simpl in Hin |- *;
  repeat (destruct Hin as [Hin|Hin]; [try discriminate|]); try contradiction;
  injection Hin as <-; rewrite Hm in Hfe; try discriminate;
  injection Hfe as ->; simpl; intuition.
Qed.

Lemma Sublist_nil_l {A} (l : list A) : Sublist [] l.
Proof. induction l; constructor; auto. Qed.

Lemma Sublist_in {A} (l1 l2 : list A) x : Sublist l1 l2 -> In x l1 -> In x l2.
Proof. induction 1; simpl; intuition. Qed.

Lemma Sublist_StronglySorted {A} (R : A -> A -> Prop) l1 l2 :
  Sublist l1 l2 -> StronglySorted R l2 -> StronglySorted R l1.
Proof.
  induction 1 as [|x l1 l2 H IH|x l1 l2 H IH]; intros Hs; auto.
  - inversion Hs; auto.
  - inversion Hs as [|? ? Hs' Hall]; subst. constructor; auto.
    rewrite Forall_forall in *. intros y Hy. apply Hall. eapply Sublist_in; eauto.
Qed.

Lemma expunge_messages_queued w upd sess mb msgs ws s :
  let (r, s') := expunge_messages w upd sess mb msgs ws s in
  exists d, trace s' = trace s ++ d /\ Sublist (queued d) (map wexp msgs).
Proof.
  revert ws s; induction msgs as [|m msgs IH]; intros ws s; simpl.
  { exists []. rewrite app_nil_r. split; [reflexivity|constructor]. }
  unfold bind.
  pose proof (expunge_message_shape w upd sess mb ws m s) as Hs.
  destruct (expunge_message w upd sess mb ws m s) as [[ws1|e] s1];
  destruct Hs as (d1 & Ht1 & Hq1 & _).
  - specialize (IH ws1 s1).
    destruct (expunge_messages w upd sess mb msgs ws1 s1) as [r s2].
    destruct IH as (d2 & Ht2 & Hq2).
    exists (EvCall (OpDeleteOne (m_id m) (m_uid m)) :: d1 ++ d2).
    rewrite Ht2, Ht1, <- app_assoc. split; [reflexivity|]. simpl.
    rewrite queued_app. destruct Hq1 as [-> | ->]; simpl.
    + apply sublist_skip. exact Hq2.
    + apply sublist_take. exact Hq2.
  - exists (EvCall (OpDeleteOne (m_id m) (m_uid m)) :: d1). split; auto. simpl.
    destruct Hq1 as [-> | ->]; simpl.
    + apply Sublist_nil_l.
    + apply sublist_take. apply Sublist_nil_l.
Qed.

Lemma expunge_messages_processed w upd sess mb msgs ws s :
  (forall op, fatal_op op = true -> fail w op = None) ->
  let (r, s') := expunge_messages w upd sess mb msgs ws s in
  (exists ws', r = Ok ws') /\
  exists d, trace s' = trace s ++ d /\
    forall m, In m msgs -> In (EvCall (OpDeleteOne (m_id m) (m_uid m))) d.
Proof.
  intros Hnf. revert ws s; induction msgs as [|m msgs IH]; intros ws s; simpl.
  { split; eauto. exists []. rewrite app_nil_r. split; [reflexivity|]. intros ? []. }
  unfold bind.
  pose proof (expunge_message_shape w upd sess mb ws m s) as Hs.
  pose proof (expunge_message_trace w upd sess mb ws m s) as Hf.
  destruct (expunge_message w upd sess mb ws m s) as [[ws1|e] s1];
  destruct Hs as (d1 & Ht1 & _ & _).
  - specialize (IH ws1 s1).
    destruct (expunge_messages w upd sess mb msgs ws1 s1) as [r s2].
    destruct IH as (Hr & d2 & Ht2 & Hin2). split; auto.
    exists (EvCall (OpDeleteOne (m_id m) (m_uid m)) :: d1 ++ d2).
    rewrite Ht2, Ht1, <- app_assoc. split; [reflexivity|].
    intros x [<-|Hx]; simpl; auto.
    right. apply in_or_app. right. auto.
  - exfalso. destruct Hf as (d & _ & _ & Hf).
    assert (Hnone : forall t, first_fatal_error w t = None).
    { induction t as [|ev t IHt]; simpl; auto.
      destruct ev as [op| | | |]; auto.
      destruct (fatal_op op) eqn:Hop; auto. rewrite (Hnf op Hop). auto. }
    rewrite Hnone in Hf. discriminate.
Qed.

(** ** The select: filtering and ordering *)

Lemma insert_by_uid_perm m l : Permutation (insert_by_uid m l) (m :: l).
Proof.
  induction l as [|x l IH]; simpl; auto.
  destruct (m_uid m <=? m_uid x); auto.
  rewrite IH. apply perm_swap.
Qed.

Lemma sort_by_uid_perm l : Permutation (sort_by_uid l) l.
Proof.
  induction l as [|x l IH]; simpl; auto.
  rewrite insert_by_uid_perm, IH. reflexivity.
Qed.

Lemma insert_by_uid_sorted m l :
  Sorted uid_le l -> Sorted uid_le (insert_by_uid m l).
Proof.
  induction 1 as [|x l Hs IH Hhd]; simpl.
  - repeat constructor.
  - destruct (m_uid m <=? m_uid x) eqn:E.
    + apply Nat.leb_le in E. constructor; [constructor; auto|constructor; exact E].
    + apply Nat.leb_gt in E. constructor; auto.
      destruct l as [|y l]; simpl.
      * constructor. unfold uid_le. lia.
      * inversion Hhd as [|? ? Hxy]; subst. unfold uid_le in *.
        destruct (m_uid m <=? m_uid y); constructor; unfold uid_le; lia.
Qed.

Lemma sort_by_uid_sorted l : Sorted uid_le (sort_by_uid l).
Proof.
  induction l as [|x l IH]; simpl; auto using insert_by_uid_sorted.
Qed.

Lemma select_rows_spec c rows m :
  In m (select_rows c rows) <-> In m rows /\ matches c m = true.
Proof.
  unfold select_rows. split; intros H.
  - apply filter_In. eapply Permutation_in; [apply sort_by_uid_perm|exact H].
  - eapply Permutation_in; [symmetry; apply sort_by_uid_perm|]. apply filter_In, H.
Qed.

Lemma matches_expunge_condition mb upd m :
  matches (expunge_condition mb upd) m = true <->
  m_mailbox m = mb_id mb /\ m_undeleted m = false /\
  (isUid upd = true -> In (m_uid m) (messages upd)).
Proof.
  unfold matches, expunge_condition; simpl.
  rewrite !andb_true_iff, Nat.eqb_eq.
  destruct (isUid upd); simpl.
  - rewrite existsb_exists. split.
    + intros [[H1 H2] [x [Hx Hx']]]. apply Nat.eqb_eq in Hx'. subst x.
      destruct (m_undeleted m); try discriminate; auto.
    + intros (H1 & H2 & H3). rewrite H2. repeat split; auto.
      exists (m_uid m). rewrite Nat.eqb_refl. auto.
  - split.
    + intros [[H1 H2] _]. destruct (m_undeleted m); try discriminate.
      repeat split; auto; discriminate.
    + intros (H1 & H2 & _). rewrite H2. auto.
Qed.

(** ** Deleting a row *)

Lemma delete_first_split p l :
  (exists x, In x l /\ p x = true) ->
  exists pre x post,
    l = pre ++ x :: post /\ p x = true /\ delete_first p l = (1, pre ++ post).
Proof.
  induction l as [|y l IH]; intros [x [Hin Hp]]; [destruct Hin|].
  simpl. destruct (p y) eqn:Hy.
  - exists [], y, l. auto.
  - destruct Hin as [<-|Hin]; [congruence|].
    destruct IH as (pre & z & post & -> & Hz & Hd); eauto.
    exists (y :: pre), z, post. rewrite Hd. auto.
Qed.

Lemma nodup_ids_eq l x y :
  NoDup (map m_id l) -> In x l -> In y l -> m_id x = m_id y -> x = y.
Proof.
  induction l as [|z l IH]; simpl; [tauto|].
  intros Hnd Hx Hy Hid. inversion Hnd as [|? ? Hnot Hnd']; subst.
  destruct Hx as [<-|Hx], Hy as [<-|Hy]; auto.
  - exfalso. apply Hnot. rewrite Hid. apply in_map, Hy.
  - exfalso. apply Hnot. rewrite <- Hid. apply in_map, Hx.
Qed.

Lemma delete_row_spec l m mbid :
  NoDup (map m_id l) -> In m l -> m_mailbox m = mbid ->
  let (n, l') := delete_first (row_key (m_id m) mbid (m_uid m)) l in
  n = 1 /\ NoDup (map m_id l') /\ (forall x, In x l' <-> In x l /\ x <> m).
Proof.
  intros Hnd Hin Hmb.
  assert (Hk : row_key (m_id m) mbid (m_uid m) m = true).
  { unfold row_key. rewrite Hmb, !Nat.eqb_refl. reflexivity. }
  destruct (delete_first_split (row_key (m_id m) mbid (m_uid m)) l)
    as (pre & x & post & Hl & Hx & ->); eauto.
  assert (x = m).
  { apply (nodup_ids_eq l); auto.
    - rewrite Hl. apply in_or_app. simpl. auto.
    - unfold row_key in Hx. apply andb_true_iff in Hx as [Hx _].
      apply andb_true_iff in Hx as [Hx _]. apply Nat.eqb_eq, Hx. }
  subst x l. rewrite map_app in Hnd. simpl in Hnd.
  split; [reflexivity|]. split.
  - rewrite map_app. eapply NoDup_remove_1; eauto.
  - apply NoDup_remove_2 in Hnd. intros y. rewrite !in_app_iff. simpl. split.
    + intros Hy. split; [tauto|]. intros ->. apply Hnd. rewrite in_app_iff.
      destruct Hy; [left|right]; apply in_map; auto.
    + intros [[Hy|[Hy|Hy]] Hne]; auto. congruence.
Qed.

(** ** Runs without failing collaborators *)

Lemma expunge_message_nofail w upd sess mb ws m s :
  (forall op, fail w op = None) ->
  fst (delete_first (row_key (m_id m) (mb_id mb) (m_uid m)) (db s)) = 1 ->
  expunge_message w upd sess mb ws m s =
  (Ok (ws ++ expunge_writes upd sess mb m),
   mkSt (snd (delete_first (row_key (m_id m) (mb_id mb) (m_uid m)) (db s)))
        (mailboxes s) (entries s ++ [expunge_entry sess mb m])
        (trace s ++ [EvCall (OpDeleteOne (m_id m) (m_uid m))] ++ gc_events m
                 ++ map EvQueue (expunge_writes upd sess mb m)
                 ++ [EvCall (OpAddEntries (m_uid m)); EvCall (OpFire (alias_id sess))])).
Proof.
  intros Hnf Hcnt.
  unfold expunge_message, delete_one, call, bind, emit, gets, set_db, ret, throw,
    try_catch, log_fatal, append_entry, gc_events, expunge_writes.
  simpl. rewrite ?Hnf. simpl. rewrite Hcnt. simpl.
  destruct (attachment_ids m) as [|i ids]; simpl; rewrite ?Hnf; simpl;
  destruct (negb (silent upd) || selected_is sess mb); simpl; rewrite ?Hnf; simpl;
  rewrite ?app_nil_r; rewrite <- ?app_assoc; reflexivity.
Qed.

Lemma release_logged_ok w s :
  fail w OpRelease = None ->
  release_logged w s =
  (Ok tt, mkSt (db s) (mailboxes s) (entries s) (trace s ++ [EvCall OpRelease])).
Proof.
  intros H. unfold release_logged, try_catch, call, bind, emit, ret; simpl. rewrite H. reflexivity.
Qed.

Lemma size_logged_ok w s :
  fail w OpSize = None ->
  size_logged w s =
  (Ok tt, mkSt (db s) (mailboxes s) (entries s) (trace s ++ [EvCall OpSize])).
Proof.
  intros H. unfold size_logged, try_catch, call, bind, emit, ret; simpl. rewrite H. reflexivity.
Qed.

Lemma count_ev_app p t1 t2 : count_ev p (t1 ++ t2) = count_ev p t1 + count_ev p t2.
Proof. unfold count_ev. rewrite filter_app, length_app. reflexivity. Qed.

Lemma count_ev_cons p ev t :
  count_ev p (ev :: t) = (if p ev then 1 else 0) + count_ev p t.
Proof. unfold count_ev. simpl. destruct (p ev); reflexivity. Qed.

Lemma count_ev_zero p t : (forall ev, In ev t -> p ev = false) -> count_ev p t = 0.
Proof.
  unfold count_ev. induction t as [|ev t IH]; simpl; intros H; auto.
  rewrite (H ev (or_introl eq_refl)). apply IH. auto.
Qed.

Lemma find_mailbox_exists mb l mailboxId :
  In mb l -> mb_id mb = mailboxId ->
  exists mb', find (fun x => mb_id x =? mailboxId) l = Some mb' /\ mb_id mb' = mailboxId.
Proof.
  intros Hin Hid.
  destruct (find (fun x => mb_id x =? mailboxId) l) as [mb'|] eqn:Hf.
  - apply find_some in Hf as [_ Hf]. apply Nat.eqb_eq in Hf. eauto.
  - pose proof (find_none _ _ Hf mb Hin) as H. simpl in H.
    rewrite Hid, Nat.eqb_refl in H. discriminate.
Qed.

Lemma select_two mb upd l m5 m9 :
  isUid upd = false -> NoDup (map m_id l) -> In m5 l -> In m9 l ->
  m_uid m5 = 5 -> m_uid m9 = 9 ->
  m_mailbox m5 = mb_id mb -> m_mailbox m9 = mb_id mb ->
  m_undeleted m5 = false -> m_undeleted m9 = false ->
  (forall m, In m l -> m_mailbox m = mb_id mb -> m_undeleted m = false -> m = m5 \/ m = m9) ->
  select_rows (expunge_condition mb upd) l = [m5; m9].
Proof.
  intros Hu Hnd H5 H9 Hu5 Hu9 Hm5 Hm9 Hd5 Hd9 Honly.
  assert (Hne : m5 <> m9) by (intros ->; congruence).
  assert (Hp : Permutation (select_rows (expunge_condition mb upd) l) [m5; m9]).
  { apply NoDup_Permutation.
    - unfold select_rows. eapply Permutation_NoDup; [symmetry; apply sort_by_uid_perm|].
      apply NoDup_filter. eapply NoDup_map_inv; eauto.
    - constructor; [simpl; intros [H|[]]; auto|repeat constructor; simpl; tauto].
    - intros x. rewrite select_rows_spec, matches_expunge_condition. split.
      + intros [Hin (Hmb & Hund & _)]. destruct (Honly x Hin Hmb Hund) as [->| ->]; simpl; auto.
      + intros [<-|[<-|[]]]; repeat split; auto; rewrite Hu; discriminate. }
  pose proof (sort_by_uid_sorted (filter (matches (expunge_condition mb upd)) l)) as Hs.
  unfold select_rows in *.
  apply Permutation_sym, Permutation_length_2_inv in Hp.
  destruct Hp as [Hp|Hp]; rewrite Hp in *; auto.
  inversion Hs as [|? ? _ Hhd]; subst. inversion Hhd as [|? ? Hle]; subst.
  unfold uid_le in Hle. lia.
Qed.

Lemma bind_ret_r {A} (m : M A) s : bind m (fun a => ret a) s = m s.
Proof. unfold bind, ret. destruct (m s) as [[a|e] s']; reflexivity. Qed.

Lemma expunge_messages_cons w upd sess mb m rest ws s :
  expunge_messages w upd sess mb (m :: rest) ws s =
  match expunge_message w upd sess mb ws m s with
  | (Ok ws', s') => expunge_messages w upd sess mb rest ws' s'
  | (Err e, s') => (Err e, s')
  end.
Proof. reflexivity. Qed.

Lemma expunge_locked_select_ok w upd sess mb s :
  fail w OpSelect = None ->
  expunge_locked w upd sess mb s =
  expunge_messages w upd sess mb (select_rows (expunge_condition mb upd) (db s)) []
    (mkSt (db s) (mailboxes s) (entries s) (trace s ++ [EvCall OpSelect])).
Proof.
  intros H. unfold expunge_locked, call, bind, emit, gets, ret; simpl. rewrite H. reflexivity.
Qed.

Lemma expunge_entry_mb sess mb mb' m :
  mb_id mb = mb_id mb' -> expunge_entry sess mb m = expunge_entry sess mb' m.
Proof. intros H. unfold expunge_entry. rewrite H. reflexivity. Qed.

Lemma count_queue op l : count_ev (is_call op) (map EvQueue l) = 0.
Proof.
  apply count_ev_zero. intros ev Hin. apply in_map_iff in Hin as (x & <- & _).
  destruct op; reflexivity.
Qed.

Lemma count_gc op m : count_ev (is_call op) (gc_events m) = 0.
Proof.
  unfold gc_events. destruct (attachment_ids m); [reflexivity|].
  destruct op; reflexivity.
Qed.

(** ** C1 *)

(** C1 (as amended): a backend EXPUNGE with [update.isUid = false] on an
    existing mailbox holding exactly two soft-deleted messages, UIDs 5
    and 9, with no failing collaborator, deletes both rows, appends one
    change entry per UID, queues the writes [EXPUNGE 5] then [EXPUNGE 9]
    unless the update is silent and the mailbox is not selected, calls
    [acquireLock] and [releaseLock] once each, and calls
    [notifier.fire] for the account once per deleted message, twice. *)
Theorem onExpunge_backend_two_soft_deleted w mailboxId upd sess s mb m5 m9 :
  (forall op, fail w op = None) ->
  In mb (mailboxes s) -> mb_id mb = mailboxId ->
  isUid upd = false ->
  NoDup (map m_id (db s)) ->
  In m5 (db s) -> In m9 (db s) -> m_uid m5 = 5 -> m_uid m9 = 9 ->
  m_mailbox m5 = mailboxId -> m_mailbox m9 = mailboxId ->
  m_undeleted m5 = false -> m_undeleted m9 = false ->
  (forall m, In m (db s) -> m_mailbox m = mailboxId -> m_undeleted m = false ->
             m = m5 \/ m = m9) ->
  let s' := snd (onExpunge_backend w mailboxId upd sess s) in
  (forall m, In m (db s') <-> In m (db s) /\ m <> m5 /\ m <> m9) /\
  entries s' = entries s ++ [expunge_entry sess mb m5; expunge_entry sess mb m9] /\
  exists d, trace s' = trace s ++ d /\
    last d (EvCall OpSize) =
      EvCallback (RespOk true
        (if negb (silent upd) ||
            match selected sess with Some x => x =? mailboxId | None => false end
         then [WFormat "EXPUNGE" 5; WFormat "EXPUNGE" 9] else [])) /\
    count_ev (is_call (OpFire (alias_id sess))) d = 2 /\
    count_ev (is_call OpAcquire) d = 1 /\
    count_ev (is_call OpRelease) d = 1.
Proof.
  intros Hnf Hmb Hid Hu Hnd H5 H9 Hu5 Hu9 Hm5 Hm9 Hd5 Hd9 Honly.
  destruct (find_mailbox_exists mb (mailboxes s) mailboxId Hmb Hid) as (mb' & Hf & Hid').
  assert (Hne : m5 <> m9) by (intros ->; congruence).
  assert (Hsel : select_rows (expunge_condition mb' upd) (db s) = [m5; m9])
    by (apply select_two; auto; try congruence; intros m Hm Hmm Hdm; apply Honly; auto; congruence).
  unfold onExpunge_backend. cbv [bind attempt].
  pose proof (expunge_resolve_trace w mailboxId s) as HR.
  destruct (expunge_resolve w mailboxId s) as [r1 s1].
  destruct HR as (Hdb1 & Hen1 & (d1 & Ht1 & Hd1) & Hr1).
  rewrite Hf in Hr1. specialize (Hr1 (Hnf _) (Hnf _)). subst r1.
  rewrite (expunge_acquire_ok w s1 (Hnf _)). cbv beta iota zeta.
  rewrite expunge_locked_select_ok by apply Hnf. simpl. rewrite Hdb1, Hsel.
  pose proof (delete_row_spec (db s) m5 (mb_id mb') Hnd H5 ltac:(congruence)) as D5.
  destruct (delete_first (row_key (m_id m5) (mb_id mb') (m_uid m5)) (db s))
    as [n5 db5] eqn:E5.
  destruct D5 as (-> & Hnd5 & Hin5).
  assert (H9' : In m9 db5) by (apply Hin5; auto).
  pose proof (delete_row_spec db5 m9 (mb_id mb') Hnd5 H9' ltac:(congruence)) as D9.
  destruct (delete_first (row_key (m_id m9) (mb_id mb') (m_uid m9)) db5)
    as [n9 db9] eqn:E9.
  destruct D9 as (-> & _ & Hin9).
  rewrite expunge_messages_cons, expunge_message_nofail by (simpl; rewrite ?Hdb1, ?E5; auto).
  simpl. rewrite ?Hdb1, ?E5. simpl.
  rewrite bind_ret_r, expunge_message_nofail by (simpl; rewrite ?E9; auto).
  simpl. rewrite E9. simpl.
  rewrite release_logged_ok by apply Hnf. rewrite size_logged_ok by apply Hnf.
  unfold emit. simpl.
  split; [|split].
  - intros m. rewrite Hin9, Hin5. tauto.
  - rewrite Hen1, <- app_assoc. simpl.
    rewrite (expunge_entry_mb sess mb' mb m5), (expunge_entry_mb sess mb' mb m9) by congruence.
    reflexivity.
  - exists ((d1 ++ [EvCall OpAcquire; EvCall OpSelect]
             ++ (EvCall (OpDeleteOne (m_id m5) (m_uid m5)) :: gc_events m5
                 ++ map EvQueue (expunge_writes upd sess mb' m5)
                 ++ [EvCall (OpAddEntries (m_uid m5)); EvCall (OpFire (alias_id sess))])
             ++ (EvCall (OpDeleteOne (m_id m9) (m_uid m9)) :: gc_events m9
                 ++ map EvQueue (expunge_writes upd sess mb' m9)
                 ++ [EvCall (OpAddEntries (m_uid m9)); EvCall (OpFire (alias_id sess))])
             ++ [EvCall OpRelease; EvCall OpSize])
            ++ [EvCallback (RespOk true (expunge_writes upd sess mb' m5
                                         ++ expunge_writes upd sess mb' m9))]).
    split.
    { rewrite Ht1. list_norm. reflexivity. }
    split; [|split; [|split]].
    + rewrite last_last. unfold expunge_writes, selected_is.
      rewrite Hid', Hu5, Hu9. destruct (negb (silent upd) || _); reflexivity.
    + repeat rewrite ?count_ev_app, ?count_ev_cons.
      rewrite count_ev_zero
        by (intros ev Hin; destruct (Hd1 ev Hin) as [-> | ->]; reflexivity).
      rewrite !count_queue, !count_gc. simpl. rewrite Nat.eqb_refl. reflexivity.
    + repeat rewrite ?count_ev_app, ?count_ev_cons.
      rewrite count_ev_zero
        by (intros ev Hin; destruct (Hd1 ev Hin) as [-> | ->]; reflexivity).
      rewrite !count_queue, !count_gc. reflexivity.
    + repeat rewrite ?count_ev_app, ?count_ev_cons.
      rewrite count_ev_zero
        by (intros ev Hin; destruct (Hd1 ev Hin) as [-> | ->]; reflexivity).
      rewrite !count_queue, !count_gc. reflexivity.
Qed.

(** ** C2 *)

(** C2: in backend mode, once the lock has been acquired, [releaseLock] is
    called before the protocol callback on every path; the callback
    receives the first error thrown in the locked block (through the
    outer catch) or, when none was thrown, success with the queued
    writes. *)
Theorem onExpunge_backend_releases_before_callback w mailboxId upd sess s :
  fail w OpAcquire = None ->
  ~ In (EvCall OpAcquire) (trace s) ->
  In (EvCall OpAcquire) (trace (snd (onExpunge_backend w mailboxId upd sess s))) ->
  exists pre mid post r,
    trace (snd (onExpunge_backend w mailboxId upd sess s)) =
      trace s ++ pre ++ [EvCall OpAcquire] ++ mid ++ [EvCall OpRelease] ++ post
              ++ [EvCallback r] /\
    ~ In (EvCall OpRelease) mid /\
    match first_fatal_error w mid with
    | Some e => r = expunge_error_response e
    | None => r = RespOk true (queued mid)
    end.
Proof.
  intros Hacq Hfresh Hin.
  unfold onExpunge_backend in *. cbv [bind attempt] in *.
  pose proof (expunge_resolve_trace w mailboxId s) as HR.
  destruct (expunge_resolve w mailboxId s) as [[mb|e] s1];
  destruct HR as (_ & _ & (d1 & Ht1 & Hd1) & _).
  2:{ pose proof (expunge_fail_trace w None e s1) as HF.
      destruct (expunge_fail w None e s1) as [r2 s2]. simpl in Hin.
      destruct HF as (_ & _ & _ & d2 & Ht2 & Hd2).
      exfalso. rewrite Ht2, Ht1 in Hin. rewrite !in_app_iff in Hin.
      destruct Hin as [[H|H]|[H|[H|[]]]].
      - exact (Hfresh H).
      - destruct (Hd1 _ H) as [H'|H']; discriminate.
      - exact (not_in_release_or_log (EvCall OpAcquire) _ Hd2 eq_refl H).
      - discriminate. }
  rewrite (expunge_acquire_ok w s1 Hacq) in *.
  cbv beta iota zeta in *.
  set (s2 := mkSt (db s1) (mailboxes s1) (entries s1) (trace s1 ++ [EvCall OpAcquire])) in *.
  pose proof (expunge_locked_trace w upd sess mb s2) as HL.
  destruct (expunge_locked w upd sess mb s2) as [rb s3].
  destruct HL as (mid & Ht3 & Hb3 & Hr3).
  pose proof (release_logged_trace w s3) as HRel.
  destruct (release_logged w s3) as [r4 s4].
  destruct HRel as (-> & _ & _ & d4 & Ht4 & Hd4 & _).
  pose proof (size_logged_trace w s4) as HS.
  destruct (size_logged w s4) as [r5 s5].
  destruct HS as (-> & _ & _ & d5 & Ht5 & _ & _).
  assert (Hmid : ~ In (EvCall OpRelease) mid) by exact (not_in_body_event (EvCall OpRelease) _ Hb3 eq_refl).
  destruct rb as [ws|e].
  - destruct Hr3 as [Hf ->].
    exists d1, mid, (d4 ++ EvCall OpSize :: d5), (RespOk true (queued mid)).
    unfold emit; simpl. rewrite Ht5, Ht4, Ht3. subst s2; simpl. rewrite Ht1.
    split; [list_norm; reflexivity|]. split; auto. rewrite Hf. reflexivity.
  - pose proof (expunge_fail_trace w (Some (acquired_lock w)) e s5) as HF.
    destruct (expunge_fail w (Some (acquired_lock w)) e s5) as [r6 s6].
    destruct HF as (_ & _ & _ & d6 & Ht6 & _).
    exists d1, mid, (d4 ++ EvCall OpSize :: d5 ++ d6), (expunge_error_response e).
    simpl. rewrite Ht6, Ht5, Ht4, Ht3. subst s2; simpl. rewrite Ht1.
    split; [list_norm; reflexivity|]. split; auto. rewrite Hr3. reflexivity.
Qed.

(** ** C3 *)

Lemma uid_le_trans : RelationClasses.Transitive uid_le.
Proof. intros a b c. unfold uid_le. lia. Qed.

Lemma map_wexp_sorted l :
  StronglySorted uid_le l -> StronglySorted write_le (map wexp l).
Proof.
  induction 1 as [|m l _ IH Hall]; simpl; constructor; auto.
  apply Forall_map. eapply Forall_impl; [|exact Hall]. intros x. unfold uid_le, write_le. auto.
Qed.

(** C3: the backend EXPUNGE selects exactly the soft-deleted
    ([undeleted = false]) messages of the mailbox, restricted to the
    client's UID set when [update.isUid] is set, in ascending UID order;
    the EXPUNGE writes queued under the lock are in ascending UID order
    and each is for a selected message. *)
Theorem expunge_selects_soft_deleted_in_uid_order w upd sess mb s :
  (forall m, In m (select_rows (expunge_condition mb upd) (db s)) <->
     In m (db s) /\ m_mailbox m = mb_id mb /\ m_undeleted m = false /\
     (isUid upd = true -> In (m_uid m) (messages upd))) /\
  Sorted uid_le (select_rows (expunge_condition mb upd) (db s)) /\
  exists d, trace (snd (expunge_locked w upd sess mb s)) = trace s ++ d /\
    Sorted write_le (queued d) /\
    (forall x, In x (queued d) ->
       exists m, In m (select_rows (expunge_condition mb upd) (db s)) /\ x = wexp m).
Proof.
  split; [|split].
  - intros m. rewrite select_rows_spec, matches_expunge_condition. reflexivity.
  - apply sort_by_uid_sorted.
  - destruct (fail w OpSelect) as [e|] eqn:Hs.
    + exists [EvCall OpSelect].
      unfold expunge_locked, call, bind, emit, throw; simpl. rewrite Hs. simpl.
      split; [reflexivity|]. split; [constructor|]. intros ? [].
    + rewrite expunge_locked_select_ok by exact Hs.
      match goal with
      | |- context [expunge_messages w upd sess mb ?l [] ?s1] =>
          pose proof (expunge_messages_queued w upd sess mb l [] s1) as H;
          destruct (expunge_messages w upd sess mb l [] s1) as [r s2]
      end.
      destruct H as (d & Ht & Hq). simpl in Ht.
      exists (EvCall OpSelect :: d). simpl. rewrite Ht, <- app_assoc. split; [reflexivity|].
      simpl. split.
      * apply StronglySorted_Sorted. eapply Sublist_StronglySorted; [exact Hq|].
        apply map_wexp_sorted. apply Sorted_StronglySorted; [apply uid_le_trans|].
        apply sort_by_uid_sorted.
      * intros x Hx. apply (Sublist_in _ _ x Hq), in_map_iff in Hx.
        destruct Hx as (m & <- & Hm). eauto.
Qed.

(** ** C6 *)

Lemma expunge_condition_id mb mb' upd :
  mb_id mb = mb_id mb' -> expunge_condition mb upd = expunge_condition mb' upd.
Proof. intros H. unfold expunge_condition. rewrite H. reflexivity. Qed.

(** C6: within one message of the loop, [attachmentStorage.deleteMany] is
    called only when [deleteOne] removed exactly one row, and an error it
    throws is logged in the same iteration; and when only
    [deleteMany] calls fail, every selected message is still deleted and
    the callback still receives success. *)
Theorem expunge_attachment_gc_best_effort w mailboxId upd sess s mb :
  (forall op, match op with OpDeleteMany _ _ => False | _ => True end -> fail w op = None) ->
  In mb (mailboxes s) -> mb_id mb = mailboxId ->
  (forall ws m st,
     let (_, st') := expunge_message w upd sess mb ws m st in
     exists d, trace st' = trace st ++ d /\
     ((exists ids, In (EvCall (OpDeleteMany (m_id m) ids)) d) ->
      fst (delete_first (row_key (m_id m) (mb_id mb) (m_uid m)) (db st)) = 1) /\
     (forall ids e, fail w (OpDeleteMany (m_id m) ids) = Some e ->
      In (EvCall (OpDeleteMany (m_id m) ids)) d -> In (EvLog e) d)) /\
  (exists ws d,
     trace (snd (onExpunge_backend w mailboxId upd sess s)) =
       trace s ++ d ++ [EvCallback (RespOk true ws)] /\
     forall m, In m (select_rows (expunge_condition mb upd) (db s)) ->
       In (EvCall (OpDeleteOne (m_id m) (m_uid m))) d).
Proof.
  intros Hnf Hmb Hid. split.
  { intros ws m st.
    pose proof (expunge_message_shape w upd sess mb ws m st) as H.
    pose proof (expunge_message_gc_logged w upd sess mb ws m st) as HL.
    destruct (expunge_message w upd sess mb ws m st) as [r st'].
    destruct H as (d & Ht & _ & Hg). destruct HL as (d' & Ht' & Hl).
    rewrite Ht in Ht'. apply app_inv_head in Ht'. subst d'.
    exists (EvCall (OpDeleteOne (m_id m) (m_uid m)) :: d). split; [exact Ht|split; auto].
    intros [ids [Hin|Hin]]; [discriminate|]. eauto. }
  assert (Hfatal : forall op, fatal_op op = true -> fail w op = None)
    by (intros op Hop; apply Hnf; destruct op; simpl in *; auto; discriminate).
  destruct (find_mailbox_exists mb (mailboxes s) mailboxId Hmb Hid) as (mb' & Hf & Hid').
  unfold onExpunge_backend. cbv [bind attempt].
  pose proof (expunge_resolve_trace w mailboxId s) as HR.
  destruct (expunge_resolve w mailboxId s) as [r1 s1].
  destruct HR as (Hdb1 & _ & (d1 & Ht1 & _) & Hr1).
  rewrite Hf in Hr1. specialize (Hr1 (Hnf OpRefresh I) (Hnf OpFindMailbox I)). subst r1.
  rewrite (expunge_acquire_ok w s1 (Hnf OpAcquire I)). cbv beta iota zeta.
  rewrite expunge_locked_select_ok by (apply Hnf; exact I). simpl.
  rewrite Hdb1, <- (expunge_condition_id mb mb') by congruence.
  match goal with
  | |- context [expunge_messages w upd sess mb' ?l [] ?s2] =>
      pose proof (expunge_messages_processed w upd sess mb' l [] s2 Hfatal) as HP;
      destruct (expunge_messages w upd sess mb' l [] s2) as [r3 s3]
  end.
  destruct HP as ((ws & ->) & d3 & Ht3 & Hin3).
  rewrite release_logged_ok by (apply Hnf; exact I).
  rewrite size_logged_ok by (apply Hnf; exact I).
  unfold emit. simpl.
  exists ws, (d1 ++ [EvCall OpAcquire; EvCall OpSelect] ++ d3 ++ [EvCall OpRelease; EvCall OpSize]).
  split.
  - rewrite Ht3. simpl. rewrite Ht1. list_norm. reflexivity.
  - intros m Hm. specialize (Hin3 m).
    assert (mb_id mb' = mb_id mb) as Hmm by congruence.
    apply in_or_app; right; apply in_or_app; right; apply in_or_app; left.
    apply Hin3. exact Hm.
Qed.

(** ** C7 *)

Lemma unsubscribe_first_spec path l :
  match find (fun mb => String.eqb (mb_path mb) path) l with
  | Some mb =>
      exists pre post, l = pre ++ mb :: post /\
        unsubscribe_first path l =
          (Some (mkMailbox (mb_id mb) (mb_path mb) false),
           pre ++ mkMailbox (mb_id mb) (mb_path mb) false :: post)
  | None => unsubscribe_first path l = (None, l)
  end.
Proof.
  induction l as [|mb l IH]; simpl; auto.
  destruct (String.eqb (mb_path mb) path) eqn:E.
  - exists [], l. auto.
  - destruct (find _ l) as [x|].
    + destruct IH as (pre & post & -> & ->). exists (mb :: pre), post. auto.
    + rewrite IH. reflexivity.
Qed.

(** C7: a backend UNSUBSCRIBE whose path names a mailbox clears the
    subscription flag of that mailbox and reports success; with a path
    naming no mailbox, the callback receives an error with protocol code
    NONEXISTENT. In both cases the only calls are the session refresh and
    [findOneAndUpdate]: no lock, no change entry, no row touched. *)
Theorem onUnsubscribe_backend_spec w path sess s :
  fail w OpRefresh = None -> fail w OpFindOneAndUpdate = None ->
  let s' := snd (onUnsubscribe w false path sess s) in
  entries s' = entries s /\ db s' = db s /\
  match find (fun mb => String.eqb (mb_path mb) path) (mailboxes s) with
  | Some mb =>
      trace s' = trace s ++ [EvCall OpRefresh; EvCall OpFindOneAndUpdate;
                             EvCallback (RespOk true [])] /\
      exists pre post, mailboxes s = pre ++ mb :: post /\
        mailboxes s' = pre ++ mkMailbox (mb_id mb) (mb_path mb) false :: post
  | None =>
      exists e, trace s' = trace s ++ [EvCall OpRefresh; EvCall OpFindOneAndUpdate;
                                       EvCallback (RespErr e)] /\
                imap_code e = Some "NONEXISTENT"%string
  end.
Proof.
  intros H1 H2.
  unfold onUnsubscribe, onUnsubscribe_backend, find_one_and_update, call, bind, attempt,
    emit, gets, set_mailboxes, ret, throw; simpl.
  rewrite H1; simpl. rewrite H2; simpl.
  pose proof (unsubscribe_first_spec path (mailboxes s)) as H.
  destruct (find _ (mailboxes s)) as [mb|].
  - destruct H as (pre & post & Hl & ->). simpl.
    repeat split; auto. { list_norm. reflexivity. }
    exists pre, post. auto.
  - rewrite H. simpl. repeat split; auto.
    exists nonexistent. split; [list_norm; reflexivity|reflexivity].
Qed.

(** ** C8 *)

(** C8: a backend EXPUNGE whose mailbox id names no mailbox calls back
    with the protocol code NONEXISTENT, without calling [acquireLock]
    and without deleting any row. *)
Theorem onExpunge_backend_nonexistent w mailboxId upd sess s :
  fail w OpRefresh = None -> fail w OpFindMailbox = None ->
  (forall mb, In mb (mailboxes s) -> mb_id mb <> mailboxId) ->
  let s' := snd (onExpunge w false mailboxId upd sess s) in
  db s' = db s /\
  exists d, trace s' = trace s ++ d ++ [EvCallback (RespCode "NONEXISTENT")] /\
            ~ In (EvCall OpAcquire) d.
Proof.
  intros H1 H2 Hnone. unfold onExpunge. unfold onExpunge_backend. cbv [bind attempt].
  pose proof (expunge_resolve_trace w mailboxId s) as HR.
  destruct (expunge_resolve w mailboxId s) as [r1 s1].
  destruct HR as (Hdb1 & _ & (d1 & Ht1 & Hd1) & Hr1).
  specialize (Hr1 H1 H2).
  destruct (find (fun mb => mb_id mb =? mailboxId) (mailboxes s)) as [mb|] eqn:Hf.
  { apply find_some in Hf as [Hin Hid]. apply Nat.eqb_eq in Hid.
    exfalso. exact (Hnone mb Hin Hid). }
  subst r1. cbv beta iota zeta.
  pose proof (expunge_fail_trace w None nonexistent s1) as HF.
  destruct (expunge_fail w None nonexistent s1) as [r2 s2].
  destruct HF as (_ & Hdb2 & _ & d2 & Ht2 & Hd2). simpl.
  split; [congruence|].
  exists (d1 ++ d2). split.
  - rewrite Ht2, Ht1. list_norm. reflexivity.
  - rewrite in_app_iff. intros [H|H].
    + destruct (Hd1 _ H) as [H'|H']; discriminate.
    + exact (not_in_release_or_log (EvCall OpAcquire) _ Hd2 eq_refl H).
Qed.

(** ** C4 *)

(** C4: in front-end mode, when the RPC request fails with an error
    carrying a protocol response code, UNSUBSCRIBE calls back with that
    code, while EXPUNGE calls back with the error itself. *)
Theorem delegate_rpc_error_response_codes w mailboxId upd path sess s e c :
  fail w OpRpc = Some e -> imap_code e = Some c ->
  trace (snd (onExpunge w true mailboxId upd sess s)) =
    trace s ++ [EvCall OpRpc; EvCallback (RespErr e)] /\
  trace (snd (onUnsubscribe w true path sess s)) =
    trace s ++ [EvCall OpRpc; EvCallback (RespCode c)].
Proof.
  intros Hf Hc.
  unfold onExpunge, onExpunge_delegate, onUnsubscribe, onUnsubscribe_delegate,
    call, bind, attempt, emit, ret, throw; simpl.
  rewrite Hf; simpl. rewrite Hc. split; list_norm; reflexivity.
Qed.

(** ** Frame of a backend EXPUNGE *)

Section Frame.

Variables sid mid : nat.





















End Frame.



(** In front-end mode, a successful RPC reply [[bool, writeStream]] has
    its writes replayed to the session's socket in order, after which
    the callback receives the boolean alone. *)
Theorem onExpunge_delegate_replays_writes w mailboxId upd sess s b ws :
  fail w OpRpc = None -> rpc_expunge_reply w = (b, Some ws) ->
  trace (snd (onExpunge w true mailboxId upd sess s)) =
    trace s ++ [EvCall OpRpc] ++ map EvSocketWrite ws ++ [EvCallback (RespOk b [])].
Proof.
  intros Hf Hr. unfold onExpunge, onExpunge_delegate, call, attempt, bind, emit, ret.
  simpl. rewrite Hf. simpl. rewrite Hr. unfold replay.
  assert (forall l st, fold_right (fun x k => emit (EvSocketWrite x) ;; k) (ret tt) l st =
            (Ok tt, mkSt (db st) (mailboxes st) (entries st) (trace st ++ map EvSocketWrite l))) as Hf'.
  { induction l as [|x l IH]; intros st; simpl.
    - unfold ret. rewrite app_nil_r. destruct st; reflexivity.
    - unfold bind, emit at 1. rewrite IH. simpl. rewrite <- app_assoc. reflexivity. }
  unfold bind at 1. rewrite Hf'. simpl. list_norm. reflexivity.
Qed.

Lemma onExpunge_delegate_replays_writes_witness :
  trace (snd (onExpunge (ex_world_reply (true, Some [WFormat "EXPUNGE" 5; WRaw "* OK"])) true 1
                (ex_update false) ex_session ex_state)) =
    trace ex_state ++ [EvCall OpRpc] ++ map EvSocketWrite [WFormat "EXPUNGE" 5; WRaw "* OK"]
                   ++ [EvCallback (RespOk true [])].
Proof.
  apply (onExpunge_delegate_replays_writes (ex_world_reply (true, Some [WFormat "EXPUNGE" 5; WRaw "* OK"]))
           1 (ex_update false) ex_session ex_state true); reflexivity.
Defined.

(** ** Witnesses *)

Ltac in_trace := vm_compute; repeat (try (left; reflexivity); right).

Lemma onExpunge_backend_two_soft_deleted_witness :
  let s' := snd (onExpunge_backend (ex_world no_failure) 1 (ex_update false) ex_session ex_state) in
  (forall m, In m (db s') <-> In m (db ex_state) /\ m <> ex_msg5 /\ m <> ex_msg9) /\
  entries s' = entries ex_state ++ [expunge_entry ex_session ex_mailbox ex_msg5;
                                    expunge_entry ex_session ex_mailbox ex_msg9] /\
  exists d, trace s' = trace ex_state ++ d /\
    last d (EvCall OpSize) =
      EvCallback (RespOk true
        (if negb (silent (ex_update false)) ||
            match selected ex_session with Some x => x =? 1 | None => false end
         then [WFormat "EXPUNGE" 5; WFormat "EXPUNGE" 9] else [])) /\
    count_ev (is_call (OpFire (alias_id ex_session))) d = 2 /\
    count_ev (is_call OpAcquire) d = 1 /\
    count_ev (is_call OpRelease) d = 1.
Proof.
  apply (onExpunge_backend_two_soft_deleted (ex_world no_failure) 1 (ex_update false)
           ex_session ex_state ex_mailbox ex_msg5 ex_msg9).
  - intros op. reflexivity.
  - simpl. auto.
  - reflexivity.
  - reflexivity.
  - repeat constructor; simpl; intuition lia.
  - simpl. auto.
  - simpl. auto.
  - reflexivity.
  - reflexivity.
  - reflexivity.
  - reflexivity.
  - reflexivity.
  - reflexivity.
  - intros m Hm Hmb Hud. simpl in Hm.
    destruct Hm as [<-|[<-|[<-|[]]]]; auto; discriminate.
Defined.

Lemma onExpunge_backend_releases_before_callback_witness :
  exists pre mid post r,
    trace (snd (onExpunge_backend (ex_world delete_one_fails) 1 (ex_update false) ex_session ex_state)) =
      trace ex_state ++ pre ++ [EvCall OpAcquire] ++ mid ++ [EvCall OpRelease] ++ post
                     ++ [EvCallback r] /\
    ~ In (EvCall OpRelease) mid /\
    match first_fatal_error (ex_world delete_one_fails) mid with
    | Some e => r = expunge_error_response e
    | None => r = RespOk true (queued mid)
    end.
Proof.
  apply (onExpunge_backend_releases_before_callback (ex_world delete_one_fails) 1
           (ex_update false) ex_session ex_state).
  - reflexivity.
  - intros [].
  - in_trace.
Defined.

Lemma expunge_attachment_gc_best_effort_witness :
  let w := ex_world delete_many_fails in
  (forall ws m st,
     let (_, st') := expunge_message w (ex_update false) ex_session ex_mailbox ws m st in
     exists d, trace st' = trace st ++ d /\
     ((exists ids, In (EvCall (OpDeleteMany (m_id m) ids)) d) ->
      fst (delete_first (row_key (m_id m) (mb_id ex_mailbox) (m_uid m)) (db st)) = 1) /\
     (forall ids e, fail w (OpDeleteMany (m_id m) ids) = Some e ->
      In (EvCall (OpDeleteMany (m_id m) ids)) d -> In (EvLog e) d)) /\
  (exists ws d,
     trace (snd (onExpunge_backend w 1 (ex_update false) ex_session ex_state)) =
       trace ex_state ++ d ++ [EvCallback (RespOk true ws)] /\
     forall m, In m (select_rows (expunge_condition ex_mailbox (ex_update false)) (db ex_state)) ->
       In (EvCall (OpDeleteOne (m_id m) (m_uid m))) d).
Proof.
  apply (expunge_attachment_gc_best_effort (ex_world delete_many_fails) 1 (ex_update false)
           ex_session ex_state ex_mailbox).
  - intros op H. destruct op; try reflexivity. contradiction.
  - simpl. auto.
  - reflexivity.
Defined.

Lemma onUnsubscribe_backend_spec_witness :
  let s' := snd (onUnsubscribe (ex_world no_failure) false "Archive" ex_session ex_state) in
  entries s' = entries ex_state /\ db s' = db ex_state /\
  match find (fun mb => String.eqb (mb_path mb) "Archive") (mailboxes ex_state) with
  | Some mb =>
      trace s' = trace ex_state ++ [EvCall OpRefresh; EvCall OpFindOneAndUpdate;
                                    EvCallback (RespOk true [])] /\
      exists pre post, mailboxes ex_state = pre ++ mb :: post /\
        mailboxes s' = pre ++ mkMailbox (mb_id mb) (mb_path mb) false :: post
  | None =>
      exists e, trace s' = trace ex_state ++ [EvCall OpRefresh; EvCall OpFindOneAndUpdate;
                                              EvCallback (RespErr e)] /\
                imap_code e = Some "NONEXISTENT"%string
  end.
Proof.
  apply (onUnsubscribe_backend_spec (ex_world no_failure) "Archive" ex_session ex_state);
    reflexivity.
Defined.

Lemma onExpunge_backend_nonexistent_witness :
  let s' := snd (onExpunge (ex_world no_failure) false 2 (ex_update false) ex_session ex_state) in
  db s' = db ex_state /\
  exists d, trace s' = trace ex_state ++ d ++ [EvCallback (RespCode "NONEXISTENT")] /\
            ~ In (EvCall OpAcquire) d.
Proof.
  apply (onExpunge_backend_nonexistent (ex_world no_failure) 2 (ex_update false)
           ex_session ex_state).
  - reflexivity.
  - reflexivity.
  - intros mb [<-|[]]. discriminate.
Defined.

Lemma delegate_rpc_error_response_codes_witness :
  trace (snd (onExpunge (ex_world rpc_nonexistent) true 1 (ex_update false) ex_session ex_state)) =
    trace ex_state ++ [EvCall OpRpc; EvCallback (RespErr nonexistent)] /\
  trace (snd (onUnsubscribe (ex_world rpc_nonexistent) true "Archive" ex_session ex_state)) =
    trace ex_state ++ [EvCall OpRpc; EvCallback (RespCode "NONEXISTENT")].
Proof.
  apply (delegate_rpc_error_response_codes (ex_world rpc_nonexistent) 1 (ex_update false)
           "Archive" ex_session ex_state nonexistent "NONEXISTENT"); reflexivity.
Defined.

(** ** Counterexample to the scenario as first stated *)

(** Two soft-deleted messages at UIDs 5 and 9: [notifier.fire] runs once per
    deleted message, so twice; and with a silent update on a mailbox that is
    not selected, no EXPUNGE write is reported. *)
Lemma onExpunge_backend_two_soft_deleted_counterexample :
  count_ev (is_call (OpFire (alias_id ex_session)))
    (trace (snd (onExpunge_backend (ex_world no_failure) 1 (ex_update false) ex_session ex_state))) = 2 /\
  last (trace (snd (onExpunge_backend (ex_world no_failure) 1 (ex_update true) ex_session ex_state)))
       (EvCall OpSize) = EvCallback (RespOk true []).
Proof. split; vm_compute; reflexivity. Qed.

End Imap.

(** * [wss.broadcast] of the SQLite backend ([src/unnamed/part_002], lines 110-136)

    Time is counted in milliseconds. [pWaitFor] with [interval: 0] checks
    the acknowledgment set on every turn of the event loop, here once per
    millisecond, and [timeout: 5000] rejects when the bound is reached; the
    catch marks the error [isCodeBug] and rethrows it. The echo of a client
    reaches the [ws.on('message')] handler (a 36-byte frame), which adds
    the uuid to [uuidsReceived] and deletes it again 1000 ms later.
    [encoder.pack] and [client.send] are modelled as not throwing. *)
Module Broadcast.

Record Client := mkClient {
  client_id : nat;
  (** milliseconds after the send at which the client's echo of the uuid
      arrives; [None] when it never does *)
  echo_delay : option nat
}.

Inductive Outcome :=
| Returned (at_ms : nat) (uuidsReceived : list string)
| Rejected (at_ms : nat) (isCodeBug : bool).

Definition timeout_ms : nat := 5000.
Definition grace_ms : nat := 1000.

(** [Set.prototype.has], [add] and [delete] on [uuidsReceived]. *)
Definition has (uuid : string) (acks : list string) : bool :=
  existsb (String.eqb uuid) acks.

Definition set_add (uuid : string) (acks : list string) : list string :=
  if has uuid acks then acks else uuid :: acks.

Definition set_delete (uuid : string) (acks : list string) : list string :=
  remove string_dec uuid acks.

(** The synchronous send loop: [if (this.uuidsReceived.has(uuid)) break;
    client.send(packed)]; the ids of the clients sent to. *)
Fixpoint send_all (uuid : string) (acks : list string) (clients : list Client) : list nat :=
  match clients with
  | [] => []
  | c :: cl => if has uuid acks then [] else client_id c :: send_all uuid acks cl
  end.

(** What one client contributes at millisecond [t]: its echo arriving
    (the message handler's [add]) and the handler's 1000 ms timer firing
    ([delete]). *)
Definition on_client (uuid : string) (t : nat) (c : Client) (acks : list string) : list string :=
  match echo_delay c with
  | Some d =>
      let a := if d =? t then set_add uuid acks else acks in
      if d + grace_ms =? t then set_delete uuid a else a
  | None => acks
  end.

Fixpoint deliver (uuid : string) (t : nat) (clients : list Client) (acks : list string)
  : list string :=
  match clients with
  | [] => acks
  | c :: cl => deliver uuid t cl (on_client uuid t c acks)
  end.

(** [pWaitFor(() => this.uuidsReceived.has(uuid), ...)] from millisecond
    [t], with [fuel] milliseconds left before the timeout, followed by
    [this.uuidsReceived.delete(uuid)] on success. *)
Fixpoint wait_for (uuid : string) (clients : list Client) (fuel t : nat) (acks : list string)
  : Outcome :=
  match fuel with
  | 0 => Rejected t true
  | S f =>
      let acks' := deliver uuid t clients acks in
      if has uuid acks' then Returned t (set_delete uuid acks')
      else wait_for uuid clients f (S t) acks'
  end.

Definition broadcast (clients : list Client) (uuid : string) (acks : list string)
  : list nat * Outcome :=
  (send_all uuid acks clients, wait_for uuid clients timeout_ms 0 acks).

(** The first millisecond at which some client's echo arrives. *)
Fixpoint earliest_echo (clients : list Client) : option nat :=
  match clients with
  | [] => None
  | c :: cl =>
      match echo_delay c, earliest_echo cl with
      | Some d, Some e => Some (Nat.min d e)
      | Some d, None => Some d
      | None, e => e
      end
  end.

Definition ex_uuid : string := "3f2b8c1e-9a4d-4e7b-8c2a-5d6e7f8a9b0c".

Definition ex_clients : list Client := [mkClient 1 None; mkClient 2 (Some 1200); mkClient 3 (Some 800)].

Lemma has_In uuid acks : has uuid acks = true <-> In uuid acks.
Proof.
  unfold has. rewrite existsb_exists. split.
  - intros (x & Hx & E). apply String.eqb_eq in E. subst. exact Hx.
  - intros H. exists uuid. split; auto. apply String.eqb_refl.
Qed.

Lemma has_false uuid acks : ~ In uuid acks -> has uuid acks = false.
Proof.
  intros H. destruct (has uuid acks) eqn:E; auto. apply has_In in E. contradiction.
Qed.

Lemma send_all_fresh uuid acks clients :
  ~ In uuid acks -> send_all uuid acks clients = map client_id clients.
Proof.
  intros H. induction clients as [|c cl IH]; simpl; auto.
  rewrite (has_false _ _ H), IH. reflexivity.
Qed.

Lemma set_delete_fresh uuid acks : ~ In uuid acks -> set_delete uuid acks = acks.
Proof. apply notin_remove. Qed.

Lemma deliver_quiet uuid t clients acks :
  ~ In uuid acks ->
  (forall c d, In c clients -> echo_delay c = Some d -> t < d) ->
  deliver uuid t clients acks = acks.
Proof.
  revert acks; induction clients as [|c cl IH]; intros acks Hf Hd; simpl; auto.
  unfold on_client.
  destruct (echo_delay c) as [d|] eqn:E.
  - assert (t < d) by (apply (Hd c); simpl; auto).
    replace (d =? t) with false by (symmetry; apply Nat.eqb_neq; lia).
    replace (d + grace_ms =? t) with false by (symmetry; apply Nat.eqb_neq; unfold grace_ms; lia).
    apply IH; auto. intros c' d' Hc'. apply Hd. simpl. auto.
  - apply IH; auto. intros c' d' Hc'. apply Hd. simpl. auto.
Qed.

Lemma deliver_keep uuid t clients acks :
  In uuid acks ->
  (forall c d, In c clients -> echo_delay c = Some d -> t <= d) ->
  deliver uuid t clients acks = acks.
Proof.
  revert acks; induction clients as [|c cl IH]; intros acks Hi Hd; simpl; auto.
  unfold on_client.
  destruct (echo_delay c) as [d|] eqn:E.
  - assert (t <= d) by (apply (Hd c); simpl; auto).
    replace (d + grace_ms =? t) with false by (symmetry; apply Nat.eqb_neq; unfold grace_ms; lia).
    assert (Ha : (if d =? t then set_add uuid acks else acks) = acks).
    { destruct (d =? t); auto. unfold set_add. apply has_In in Hi. rewrite Hi. reflexivity. }
    rewrite Ha. apply IH; auto. intros c' d' Hc'. apply Hd. simpl. auto.
  - apply IH; auto. intros c' d' Hc'. apply Hd. simpl. auto.
Qed.

Lemma deliver_hit uuid t clients acks :
  ~ In uuid acks ->
  (forall c d, In c clients -> echo_delay c = Some d -> t <= d) ->
  (exists c, In c clients /\ echo_delay c = Some t) ->
  deliver uuid t clients acks = uuid :: acks.
Proof.
  revert acks; induction clients as [|c cl IH]; intros acks Hf Hd Hx.
  { destruct Hx as (? & [] & _). }
  simpl. unfold on_client.
  assert (Hd' : forall c' d', In c' cl -> echo_delay c' = Some d' -> t <= d')
    by (intros c' d' Hc'; apply Hd; simpl; auto).
  destruct (echo_delay c) as [d|] eqn:E.
  - assert (t <= d) by (apply (Hd c); simpl; auto).
    replace (d + grace_ms =? t) with false by (symmetry; apply Nat.eqb_neq; unfold grace_ms; lia).
    destruct (d =? t) eqn:Et.
    + unfold set_add. rewrite (has_false _ _ Hf).
      apply deliver_keep; simpl; auto.
    + apply IH; auto. destruct Hx as (c' & [<-|Hc'] & He); [|eauto].
      apply Nat.eqb_neq in Et. congruence.
  - apply IH; auto. destruct Hx as (c' & [<-|Hc'] & He); [congruence|eauto].
Qed.

Lemma wait_for_quiet uuid clients fuel t acks :
  ~ In uuid acks ->
  (forall c d, In c clients -> echo_delay c = Some d -> t + fuel <= d) ->
  wait_for uuid clients fuel t acks = Rejected (t + fuel) true.
Proof.
  revert t; induction fuel as [|f IH]; intros t Hf Hd; simpl.
  { rewrite Nat.add_0_r. reflexivity. }
  rewrite deliver_quiet; auto.
  2:{ intros c d Hc He. specialize (Hd c d Hc He). lia. }
  rewrite (has_false _ _ Hf). rewrite IH; auto.
  - f_equal. lia.
  - intros c d Hc He. specialize (Hd c d Hc He). lia.
Qed.

Lemma wait_for_hit uuid clients fuel t d acks :
  ~ In uuid acks -> t <= d -> d < t + fuel ->
  (forall c d', In c clients -> echo_delay c = Some d' -> d <= d') ->
  (exists c, In c clients /\ echo_delay c = Some d) ->
  wait_for uuid clients fuel t acks = Returned d acks.
Proof.
  revert t; induction fuel as [|f IH]; intros t Hf Ht Hlt Hd Hx; [lia|]. simpl.
  destruct (Nat.eq_dec t d) as [<-|Hne].
  - rewrite deliver_hit; auto. simpl. rewrite String.eqb_refl. simpl.
    unfold set_delete. simpl. destruct (string_dec uuid uuid) as [_|n]; [|congruence].
    rewrite notin_remove; auto.
  - rewrite deliver_quiet; auto.
    2:{ intros c d' Hc He. specialize (Hd c d' Hc He). lia. }
    rewrite (has_false _ _ Hf). apply IH; auto; lia.
Qed.

Lemma earliest_echo_some clients d :
  earliest_echo clients = Some d ->
  (exists c, In c clients /\ echo_delay c = Some d) /\
  (forall c d', In c clients -> echo_delay c = Some d' -> d <= d').
Proof.
  revert d; induction clients as [|c cl IH]; intros d H; simpl in H; [discriminate|].
  destruct (echo_delay c) as [x|] eqn:E; destruct (earliest_echo cl) as [y|] eqn:Ey.
  - injection H as <-. destruct (IH y eq_refl) as [(c' & Hc' & He') Hmin].
    split.
    + destruct (Nat.min_spec x y) as [[_ ->]|[_ ->]]; [exists c|exists c']; simpl; auto.
    + intros c0 d' [<-|Hc0] He; [rewrite E in He; injection He as <-; lia|].
      specialize (Hmin c0 d' Hc0 He). lia.
  - injection H as <-. split; [exists c; simpl; auto|].
    intros c0 d' [<-|Hc0] He; [rewrite E in He; injection He as <-; lia|].
    (* no echo in the rest *)
    exfalso. clear IH. induction cl as [|c1 cl' IH']; [destruct Hc0|].
    simpl in Ey. destruct (echo_delay c1) eqn:E1; [destruct (earliest_echo cl'); discriminate|].
    destruct Hc0 as [<-|Hc0]; [congruence|]. auto.
  - destruct (IH d H) as [(c' & Hc' & He') Hmin]. split; [exists c'; simpl; auto|].
    intros c0 d' [<-|Hc0] He; [congruence|]. eauto.
  - discriminate.
Qed.

Lemma earliest_echo_none clients :
  earliest_echo clients = None -> forall c, In c clients -> echo_delay c = None.
Proof.
  induction clients as [|c cl IH]; simpl; intros H c0 Hc0; [destruct Hc0|].
  destruct (echo_delay c) eqn:E; [destruct (earliest_echo cl); discriminate|].
  destruct Hc0 as [<-|Hc0]; auto.
Qed.

(** C5: with a fresh uuid, [broadcast] sends the packed message to every
    connected client; if the first echo of the uuid arrives before 5000 ms,
    it returns normally at that millisecond with the uuid no longer in the
    acknowledgment set; otherwise, in particular with no client connected,
    it rejects (with [isCodeBug] set) exactly at 5000 ms and not before. *)
Theorem broadcast_spec clients uuid acks :
  ~ In uuid acks ->
  fst (broadcast clients uuid acks) = map client_id clients /\
  match earliest_echo clients with
  | Some d =>
      if d <? timeout_ms
      then snd (broadcast clients uuid acks) = Returned d acks /\ ~ In uuid acks
      else snd (broadcast clients uuid acks) = Rejected timeout_ms true
  | None => snd (broadcast clients uuid acks) = Rejected timeout_ms true
  end.
Proof.
  intros Hf. unfold broadcast; cbv [fst snd]. split; [apply send_all_fresh; exact Hf|].
  destruct (earliest_echo clients) as [d|] eqn:E.
  - destruct (earliest_echo_some clients d E) as [Hx Hmin].
    destruct (d <? timeout_ms) eqn:Hlt.
    + apply Nat.ltb_lt in Hlt. split; [|exact Hf].
      apply wait_for_hit; auto; lia.
    + apply Nat.ltb_ge in Hlt. apply wait_for_quiet; auto.
      intros c d' Hc He. specialize (Hmin c d' Hc He). lia.
  - apply wait_for_quiet; auto.
    intros c d' Hc He. rewrite (earliest_echo_none clients E c Hc) in He. discriminate.
Qed.

Lemma broadcast_spec_witness :
  fst (broadcast ex_clients ex_uuid []) = map client_id ex_clients /\
  match earliest_echo ex_clients with
  | Some d =>
      if d <? timeout_ms
      then snd (broadcast ex_clients ex_uuid []) = Returned d [] /\ ~ In ex_uuid []
      else snd (broadcast ex_clients ex_uuid []) = Rejected timeout_ms true
  | None => snd (broadcast ex_clients ex_uuid []) = Rejected timeout_ms true
  end.
Proof. apply (broadcast_spec ex_clients ex_uuid []). intros []. Defined.

End Broadcast.

(** * Authentication of websocket upgrades ([src/unnamed/part_002], lines 141-201)

    [basic-auth] parses the [Authorization] header into a name and a pass,
    both strings, or gives [undefined]. [decrypt] is a parameter of the
    section: [None] stands for a [decrypt] that throws. An error thrown
    inside [authenticate] is caught, marked [isCodeBug] and passed to the
    callback; it is a plain [Error], without Boom's [output]. *)
Module Upgrade.

Record Credentials := mkCredentials {
  name : string;
  pass : string
}.

(** [err.output] of a Boom error: [statusCode] and [payload.error]. *)
Record BoomOutput := mkBoomOutput {
  statusCode : nat;
  payload_error : string
}.

Record AuthError := mkAuthError {
  output : option BoomOutput;
  isCodeBug : bool
}.

Inductive Action :=
| SocketWrite (data : string)
| SocketDestroy
| RemoveErrorListener
| HandleUpgrade
| EmitConnection.

(** [Boom.unauthorized(message)] *)
Definition unauthorized : AuthError :=
  mkAuthError (Some (mkBoomOutput 401 "Unauthorized")) false.

Definition crlf : string := String (ascii_of_nat 13) (String (ascii_of_nat 10) EmptyString).

(** Decimal digits of a number, for the template literal. *)
Fixpoint digits (fuel n : nat) (acc : string) : string :=
  match fuel with
  | 0 => acc
  | S f =>
      let acc' := String (ascii_of_nat (48 + n mod 10)) acc in
      if n <? 10 then acc' else digits f (n / 10) acc'
  end.

Definition nat_to_string (n : nat) : string := digits (S n) n EmptyString.

(** [`HTTP/1.1 ${err?.output?.statusCode || 401} ${err?.output?.payload?.error || 'Unauthorized'}\r\n\r\n`] *)
Definition status_line (err : AuthError) : string :=
  let code := match output err with
              | Some o => if statusCode o =? 0 then 401 else statusCode o
              | None => 401
              end in
  let text := match output err with
              | Some o => if String.eqb (payload_error o) EmptyString
                          then "Unauthorized"%string else payload_error o
              | None => "Unauthorized"%string
              end in
  ("HTTP/1.1 " ++ nat_to_string code ++ " " ++ text ++ crlf ++ crlf)%string.

Definition unauthorized_line : string :=
  ("HTTP/1.1 401 Unauthorized" ++ crlf ++ crlf)%string.

Section Auth.

Variable decrypt : string -> option string.
Variable API_SECRETS : list string.

(** [authenticate]: the error passed to [fn], [None] for [fn()]. *)
Definition authenticate (credentials : option Credentials) : option AuthError :=
  match credentials with
  | None => Some unauthorized
  | Some c =>
      if String.eqb (name c) EmptyString then Some unauthorized
      else match decrypt (name c) with
           | None => Some (mkAuthError None true)
           | Some v =>
               if existsb (String.eqb v) API_SECRETS then None else Some unauthorized
           end
  end.

(** The [upgrade] handler once [authenticate] has called back. *)
Definition on_upgrade (credentials : option Credentials) : list Action :=
  match authenticate credentials with
  | Some err => [SocketWrite (status_line err); SocketDestroy]
  | None => [RemoveErrorListener; HandleUpgrade; EmitConnection]
  end.

Definition accepted_credentials (credentials : option Credentials) : Prop :=
  exists c v, credentials = Some c /\ name c <> EmptyString /\
    decrypt (name c) = Some v /\ In v API_SECRETS.

Lemma status_line_401 err :
  (output err = None \/ output err = Some (mkBoomOutput 401 "Unauthorized")) ->
  status_line err = unauthorized_line.
Proof. intros [H|H]; unfold status_line; rewrite H; reflexivity. Qed.

(** C9: an upgrade is accepted (the websocket connection is emitted) when
    its credentials' name is non-empty and decrypts to a member of
    [API_SECRETS]; every other request gets the status line
    [HTTP/1.1 401 Unauthorized] and the socket is destroyed, with no
    connection. *)
Theorem on_upgrade_spec credentials :
  (accepted_credentials credentials ->
   on_upgrade credentials = [RemoveErrorListener; HandleUpgrade; EmitConnection]) /\
  (~ accepted_credentials credentials ->
   on_upgrade credentials = [SocketWrite unauthorized_line; SocketDestroy]).
Proof.
  unfold on_upgrade, accepted_credentials. split.
  - intros (c & v & -> & Hn & Hd & Hv). simpl.
    apply String.eqb_neq in Hn. rewrite Hn, Hd.
    assert (existsb (String.eqb v) API_SECRETS = true) as ->.
    { apply existsb_exists. exists v. split; auto. apply String.eqb_refl. }
    reflexivity.
  - intros Hna.
    destruct (authenticate credentials) as [err|] eqn:Ha.
    + f_equal. f_equal. apply status_line_401.
      destruct credentials as [c|]; simpl in Ha; [|injection Ha as <-; auto].
      destruct (String.eqb (name c) EmptyString); [injection Ha as <-; auto|].
      destruct (decrypt (name c)) as [v|]; [|injection Ha as <-; auto].
      destruct (existsb _ _); [discriminate|injection Ha as <-; auto].
    + exfalso. apply Hna.
      destruct credentials as [c|]; simpl in Ha; [|discriminate].
      destruct (String.eqb (name c) EmptyString) eqn:En; [discriminate|].
      destruct (decrypt (name c)) as [v|] eqn:Ed; [|discriminate].
      destruct (existsb (String.eqb v) API_SECRETS) eqn:Ev; [|discriminate].
      apply existsb_exists in Ev as (x & Hx & Ex). apply String.eqb_eq in Ex. subst x.
      exists c, v. repeat split; auto. apply String.eqb_neq. exact En.
Qed.

End Auth.

End Upgrade.

(** * The backend's [ws.on('message')] handler ([src/unnamed/part_002], lines 216-235)

    A frame is a [Buffer]; [undefined] (the only falsy value it can be) is
    [None]. [data.toString()] (UTF-8 decoding) is a parameter of the
    section. *)
Module WsMessage.

Inductive Action :=
| MarkAlive                          (* this.isAlive = true *)
| AckAdd (uuid : string)             (* this.uuidsReceived.add(uuid) *)
| AckDeleteAfter (ms : nat) (uuid : string)
                                     (* setTimeout(() => this.uuidsReceived.delete(uuid), ms) *)
| Parse (data : list Byte.byte).     (* parsePayload.call(this, data, ws) *)

(** Decoding of a byte string whose bytes are all ASCII. *)
Definition ascii_to_string (data : list Byte.byte) : string :=
  string_of_list_ascii (map ascii_of_byte data).

Section Handler.

Variable to_string : list Byte.byte -> string.

Definition on_message (data : option (list Byte.byte)) : list Action :=
  MarkAlive ::
  match data with
  | None => []
  | Some d =>
      if (List.length d =? 4) && String.eqb (to_string d) "ping" then []
      else if List.length d =? 36 then [AckAdd (to_string d); AckDeleteAfter 1000 (to_string d)]
      else [Parse d]
  end.

Definition is_ping (d : list Byte.byte) : Prop :=
  List.length d = 4 /\ to_string d = "ping"%string.

(** C10 (as corrected): a 4-byte ['ping'] frame is ignored; a 36-byte frame
    adds its text to the acknowledgment set and schedules its deletion
    after 1000 ms, without reaching the parser; every other frame,
    including a zero-length one, is passed to [parsePayload]. *)
Theorem on_message_spec data :
  (forall d, data = Some d -> is_ping d -> on_message data = [MarkAlive]) /\
  (forall d, data = Some d -> ~ is_ping d -> List.length d = 36 ->
     on_message data = [MarkAlive; AckAdd (to_string d); AckDeleteAfter 1000 (to_string d)]) /\
  (forall p, In (Parse p) (on_message data) <->
     data = Some p /\ ~ is_ping p /\ List.length p <> 36).
Proof.
  unfold on_message, is_ping. split; [|split].
  - intros d -> [Hl Hs]. rewrite Hl, Hs. reflexivity.
  - intros d -> Hnp Hl.
    destruct ((List.length d =? 4) && String.eqb (to_string d) "ping") eqn:E.
    + apply andb_true_iff in E as [E1 E2]. apply Nat.eqb_eq in E1.
      apply String.eqb_eq in E2. exfalso. auto.
    + rewrite Hl. reflexivity.
  - intros p. destruct data as [d|]; simpl.
    2:{ split; [intros [[=]|[]]|intros ([=] & _)]. }
    destruct ((List.length d =? 4) && String.eqb (to_string d) "ping") eqn:E.
    + apply andb_true_iff in E as [E1 E2]. apply Nat.eqb_eq in E1. apply String.eqb_eq in E2.
      split; [intros [[=]|[]]|intros ([= <-] & Hnp & _); exfalso; auto].
    + destruct (List.length d =? 36) eqn:E36; simpl.
      * apply Nat.eqb_eq in E36.
        split; [intros [[=]|[[=]|[[=]|[]]]]|intros ([= <-] & _ & H); congruence].
      * apply Nat.eqb_neq in E36. split.
        -- intros [[=]|[[= <-]|[]]]. repeat split; auto.
           intros [Hl Hs]. rewrite Hl, Hs in E. discriminate.
        -- intros ([= <-] & _ & _). auto.
Qed.

End Handler.

(** A zero-length frame is not ignored: it reaches [parsePayload]. *)
Lemma on_message_empty_frame_counterexample :
  on_message ascii_to_string (Some []) = [MarkAlive; Parse []].
Proof. reflexivity. Qed.

End WsMessage.

(** * [onClose] ([src/helpers/on-close.js], lines 9-50)

    Two tasks run under [Promise.all]; each reads a connection counter
    with [incrby(key, 0)] and decrements it when positive. They touch
    different keys (a hostname or address, and an alias or domain id),
    so they are run one after the other here. Redis is a map from keys
    to integers, a missing key reading as 0 ([incrby] then creates it);
    [fails] says which commands throw, the error being logged. *)
Module OnClose.

Record User := mkUser {
  alias_id : string;
  domain_id : string
}.

Record Session := mkSession {
  resolvedRootClientHostname : string;
  remoteAddress : string;
  user : option User
}.

Inductive Cmd :=
| Incrby (key : string)
| Decr (key : string).

Inductive Event :=
| Sent (c : Cmd)
| LogFatal (c : Cmd).

Definition Store := string -> option Z.

Record St := mkSt {
  store : Store;
  log : list Event
}.

(** JavaScript truthiness of a string, and [a || b]. *)
Definition truthy (x : string) : bool := negb (String.eqb x EmptyString).



Definition set (st : Store) (k : string) (v : Z) : Store :=
  fun k' => if String.eqb k' k then Some v else st k'.

Section Run.

Variable fails : Cmd -> bool.







End Run.

Definition ex_session : Session :=
  mkSession "mail.example.com" "203.0.113.5" (Some (mkUser "64f0c0ffee" "")).









End OnClose.

(** * Heartbeat of the backend's websocket clients ([src/unnamed/part_002])

    Every 35 s the interval set in [listen] (lines 256-262) walks
    [wss.clients] in insertion order: a client whose [isAlive] is [false]
    is terminated and the callback returns, ending the walk; any other
    client is marked not alive and pinged. The [pong] handler (lines
    211-214, a plain function, so [this] is the client) marks the client
    alive. The [message] handler (line 217) is an arrow function: its
    [this.isAlive = true] sets the flag of the server object, not of the
    client. A terminated client's [close] removes it from [wss.clients]
    before the next tick. *)
Module Heartbeat.

Record WsClient := mkWsClient {
  ws_id : nat;
  isAlive : bool
}.

Inductive Action :=
| Terminate (id : nat)
| Ping (id : nat).

Inductive WsEvent :=
| Tick
| Pong (id : nat)
| Message (id : nat).

(** One run of the interval callback; the clients left afterwards. *)
Fixpoint heartbeat (clients : list WsClient) : list WsClient * list Action :=
  match clients with
  | [] => ([], [])
  | c :: cl =>
      if negb (isAlive c) then (cl, [Terminate (ws_id c)])
      else let (cl', acts) := heartbeat cl in
           (mkWsClient (ws_id c) false :: cl', Ping (ws_id c) :: acts)
  end.

Definition on_pong (id : nat) (clients : list WsClient) : list WsClient :=
  map (fun c => if ws_id c =? id then mkWsClient (ws_id c) true else c) clients.

Definition step (clients : list WsClient) (ev : WsEvent) : list WsClient * list Action :=
  match ev with
  | Tick => heartbeat clients
  | Pong id => (on_pong id clients, [])
  | Message _ => (clients, [])
  end.

Fixpoint run (clients : list WsClient) (evs : list WsEvent) : list WsClient * list Action :=
  match evs with
  | [] => (clients, [])
  | ev :: evs' =>
      let (cl1, a1) := step clients ev in
      let (cl2, a2) := run cl1 evs' in
      (cl2, a1 ++ a2)
  end.

Definition is_tick (ev : WsEvent) : bool :=
  match ev with Tick => true | _ => false end.

Definition is_message (ev : WsEvent) : bool :=
  match ev with Message _ => true | _ => false end.

Definition ex_clients : list WsClient := [mkWsClient 1 true; mkWsClient 2 true; mkWsClient 3 true].

Definition mark (c : WsClient) : WsClient := mkWsClient (ws_id c) false.
Definition ping (c : WsClient) : Action := Ping (ws_id c).

Lemma run_app cl e1 e2 :
  run cl (e1 ++ e2) =
    let (cl1, a1) := run cl e1 in let (cl2, a2) := run cl1 e2 in (cl2, a1 ++ a2).
Proof.
  revert cl; induction e1 as [|e e1 IH]; intros cl; simpl.
  - destruct (run cl e2); reflexivity.
  - destruct (step cl e) as [c1 a1]. rewrite IH.
    destruct (run c1 e1) as [c2 a2]. destruct (run c2 e2) as [c3 a3].
    rewrite app_assoc. reflexivity.
Qed.

Lemma heartbeat_all_alive clients :
  forallb isAlive clients = true ->
  heartbeat clients = (map mark clients, map ping clients).
Proof.
  induction clients as [|c cl IH]; simpl; intros H; auto.
  apply andb_true_iff in H as [Hc Hp]. rewrite Hc, (IH Hp). reflexivity.
Qed.

Lemma run_messages cl ids : run cl (map Message ids) = (cl, []).
Proof. induction ids as [|i ids IH]; simpl; auto. rewrite IH. reflexivity. Qed.

Lemma run_pongs cl ids :
  run cl (map Pong ids) =
    (map (fun c => if existsb (Nat.eqb (ws_id c)) ids then mkWsClient (ws_id c) true else c) cl, []).
Proof.
  revert cl; induction ids as [|i ids IH]; intros cl; simpl.
  - f_equal. induction cl as [|c cl IHc]; simpl; f_equal; auto.
  - rewrite IH. simpl. f_equal. unfold on_pong. rewrite map_map.
    apply map_ext. intros c. rewrite Nat.eqb_sym.
    destruct (i =? ws_id c); simpl; destruct (existsb (Nat.eqb (ws_id c)) ids); reflexivity.
Qed.

(** One tick: the clients before the first one whose [isAlive] is false
    are marked not alive and pinged; that client is terminated and
    dropped; the walk stops there, so the clients after it are neither
    pinged nor marked. *)
Theorem heartbeat_stops_at_first_dead pre d post :
  forallb isAlive pre = true -> isAlive d = false ->
  heartbeat (pre ++ d :: post) =
    (map mark pre ++ post, map ping pre ++ [Terminate (ws_id d)]).
Proof.
  induction pre as [|c pre IH]; simpl; intros Hp Hd.
  - rewrite Hd. reflexivity.
  - apply andb_true_iff in Hp as [Hc Hp]. rewrite Hc, (IH Hp Hd). reflexivity.
Qed.

Lemma heartbeat_stops_at_first_dead_witness :
  heartbeat ([mkWsClient 1 true] ++ mkWsClient 2 false :: [mkWsClient 3 false]) =
    (map mark [mkWsClient 1 true] ++ [mkWsClient 3 false],
     map ping [mkWsClient 1 true] ++ [Terminate (ws_id (mkWsClient 2 false))]).
Proof. apply heartbeat_stops_at_first_dead; reflexivity. Defined.

(** A client that answers the ping with a pong before the next tick is
    pinged again, not terminated: if every client is alive and every
    client pongs between two ticks, neither tick terminates anyone and
    each tick pings every client. *)
Theorem heartbeat_pong_keeps_alive clients :
  forallb isAlive clients = true ->
  run clients (Tick :: map (fun c => Pong (ws_id c)) clients ++ [Tick]) =
    (map mark clients, map ping clients ++ map ping clients).
Proof.
  intros H. simpl. rewrite (heartbeat_all_alive _ H), run_app.
  rewrite <- (map_map ws_id Pong), run_pongs.
  assert (E : map (fun c => if existsb (Nat.eqb (ws_id c)) (map ws_id clients)
                           then mkWsClient (ws_id c) true else c) (map mark clients)
              = map (fun c => mkWsClient (ws_id c) true) clients).
  { rewrite map_map. apply map_ext_in. intros c Hin. unfold mark; simpl.
    replace (existsb (Nat.eqb (ws_id c)) (map ws_id clients)) with true; auto.
    symmetry. apply existsb_exists. exists (ws_id c).
    split; [apply in_map; auto | apply Nat.eqb_refl]. }
  rewrite E. simpl.
  rewrite heartbeat_all_alive.
  - unfold mark, ping. rewrite !map_map, app_nil_r. reflexivity.
  - rewrite forallb_forall. intros x Hx. apply in_map_iff in Hx as [c [<- _]]. reflexivity.
Qed.

Lemma heartbeat_pong_keeps_alive_witness :
  run ex_clients (Tick :: map (fun c => Pong (ws_id c)) ex_clients ++ [Tick]) =
    (map mark ex_clients, map ping ex_clients ++ map ping ex_clients).
Proof. apply heartbeat_pong_keeps_alive. reflexivity. Defined.

(** A message does not keep a client alive: if every client is alive
    and between two ticks the clients only send messages, the second
    tick terminates the first client and, since the walk stops there,
    pings nobody. *)
Theorem heartbeat_message_not_keepalive c cl ids :
  forallb isAlive (c :: cl) = true ->
  run (c :: cl) (Tick :: map Message ids ++ [Tick]) =
    (map mark cl, map ping (c :: cl) ++ [Terminate (ws_id c)]).
Proof.
  intros H. change (run (c :: cl) (Tick :: map Message ids ++ [Tick]))
    with (let (cl1, a1) := heartbeat (c :: cl) in
          let (cl2, a2) := run cl1 (map Message ids ++ [Tick]) in (cl2, a1 ++ a2)).
  rewrite (heartbeat_all_alive _ H), run_app, run_messages. simpl.
  reflexivity.
Qed.

Lemma heartbeat_message_not_keepalive_witness :
  run (mkWsClient 1 true :: [mkWsClient 2 true]) (Tick :: map Message [1; 2; 2] ++ [Tick]) =
    (map mark [mkWsClient 2 true], map ping (mkWsClient 1 true :: [mkWsClient 2 true]) ++ [Terminate (ws_id (mkWsClient 1 true))]).
Proof. apply heartbeat_message_not_keepalive. reflexivity. Defined.

End Heartbeat.

(** * [validateAlias] ([src/unnamed/part_004], lines 11-55)

    The checks run in the order of the source and the first failing one
    throws an [SMTPError]. [punycode.toASCII] and [config.urls.web] only
    enter the message of the missing-alias error; they are section
    variables. *)
Module ValidateAlias.

Local Open Scope string_scope.

Record AliasUser := mkAliasUser { isBanned : bool }.

Record Alias := mkAlias {
  user : option AliasUser;
  is_enabled : bool;
  name : string
}.

Record SMTPError := mkSMTPError {
  message : string;
  responseCode : option nat;
  imapResponse : option string;
  ignoreHook : bool
}.

Section Validate.

Variable web_url : string.
Variable toASCII : string -> string.

Definition auth_failed (msg : string) : SMTPError :=
  mkSMTPError msg None (Some "AUTHENTICATIONFAILED") false.

(** [None]: returns normally; [Some e]: throws [e]. *)
Definition validateAlias (alias : option Alias) (domain_name alias_name : string)
  : option SMTPError :=
  match alias with
  | None =>
      Some (mkSMTPError
              ("Alias does not exist, go to " ++ web_url ++ "/my-account/domains/"
               ++ toASCII domain_name ++ " and add the alias of " ++ String (ascii_of_nat 34) EmptyString
               ++ alias_name ++ String (ascii_of_nat 34) EmptyString)
              (Some 535) None true)
  | Some a =>
      match user a with
      | None => Some (auth_failed "Alias user does not exist")
      | Some u =>
          if isBanned u then Some (auth_failed "Alias user is banned")
          else if negb (is_enabled a) then Some (auth_failed "Alias is disabled")
          else if String.eqb (name a) "*" then Some (auth_failed "Alias cannot be a catch-all")
          else if String.prefix "/" (name a) then Some (auth_failed "Alias cannot be a regex")
          else None
      end
  end.

End Validate.


(** An alias passes exactly when it exists, has a user that is not
    banned, is enabled, is not the catch-all [*] and is not a regex
    (a name starting with [/]). *)
Theorem validateAlias_accepts web toASCII alias dn an :
  validateAlias web toASCII alias dn an = None <->
  exists a u, alias = Some a /\ user a = Some u /\ isBanned u = false /\
              is_enabled a = true /\ name a <> "*" /\ String.prefix "/" (name a) = false.
Proof.
  unfold validateAlias. split.
  - destruct alias as [a|]; [|discriminate].
    destruct (user a) as [u|] eqn:Hu; [|discriminate].
    destruct (isBanned u) eqn:Hb; [discriminate|].
    destruct (is_enabled a) eqn:He; [|discriminate]. simpl.
    destruct (String.eqb (name a) "*") eqn:Hs; [discriminate|].
    destruct (String.prefix "/" (name a)) eqn:Hp; [discriminate|].
    intros _. exists a, u. repeat split; auto.
    intros E. rewrite E in Hs. discriminate.
  - intros (a & u & -> & Hu & Hb & He & Hs & Hp). rewrite Hu, Hb, He, Hp. simpl.
    apply String.eqb_neq in Hs. rewrite Hs. reflexivity.
Qed.



End ValidateAlias.

(** * [create] of the emails API ([src/app/controllers/api/v1/emails.js], lines 43-144)

    The request body is a parsed JSON value; an object is an association
    list with distinct keys. [_.pick] keeps the whitelisted keys present
    in the body, in whitelist order. Reading a property of [null] or
    [undefined] throws a [TypeError]; reading a property a value does not
    have gives [undefined]. The outcome is the error thrown before the
    queue (logged and rethrown by the [catch]) or the message handed to
    [Emails.queue]. *)
Module EmailsCreate.

Local Open Scope string_scope.
Local Set Warnings "-register-all".

Inductive JVal :=
| JUndef
| JNull
| JBool (b : bool)
| JNum (n : Z)
| JStr (s : string)
| JArr (l : list JVal)
| JObj (fields : list (string * JVal)).

Fixpoint lookup (k : string) (fields : list (string * JVal)) : option JVal :=
  match fields with
  | [] => None
  | (k', v) :: fs => if String.eqb k k' then Some v else lookup k fs
  end.

Definition truthy (v : JVal) : bool :=
  match v with
  | JUndef | JNull => false
  | JBool b => b
  | JNum n => negb (Z.eqb n 0)
  | JStr s => negb (String.eqb s EmptyString)
  | JArr _ | JObj _ => true
  end.

(** [v.k]: [None] is the [TypeError] of a property read on [null] or
    [undefined]. *)
Definition get_prop (v : JVal) (k : string) : option JVal :=
  match v with
  | JUndef | JNull => None
  | JObj fs => Some (match lookup k fs with Some x => x | None => JUndef end)
  | _ => Some JUndef
  end.

(** [v?.k] *)
Definition opt_prop (v : JVal) (k : string) : JVal :=
  match get_prop v k with Some x => x | None => JUndef end.

(** lodash [_.isObject] on JSON values *)
Definition is_object (v : JVal) : bool :=
  match v with JArr _ | JObj _ => true | _ => false end.

Definition is_plain_object (v : JVal) : bool :=
  match v with JObj _ => true | _ => false end.

Definition whitelist : list string :=
  ["from"; "to"; "cc"; "bcc"; "subject"; "text"; "html"; "attachments";
   "sender"; "replyTo"; "inReplyTo"; "references";
   "attachDataUrls"; "watchHtml"; "amp";
   "icalEvent"; "alternatives"; "encoding"; "raw"; "textEncoding"; "priority";
   "headers"; "messageId"; "date"; "list"].

Definition pick (keys : list string) (fields : list (string * JVal)) : list (string * JVal) :=
  flat_map (fun k => match lookup k fields with Some v => [(k, v)] | None => [] end) keys.

(** [attachments.some((a) => a.path || a.href)]; [None] is a [TypeError]. *)
Fixpoint some_path_href (l : list JVal) : option bool :=
  match l with
  | [] => Some false
  | a :: l' =>
      match get_prop a "path" with
      | None => None
      | Some p =>
          if truthy p then Some true
          else match get_prop a "href" with
               | None => None
               | Some h => if truthy h then Some true else some_path_href l'
               end
      end
  end.

(** [_.isObject(message.k) && (message?.k?.path || message?.k?.href)] *)
Definition uses_path (message : list (string * JVal)) (k : string) : bool :=
  match lookup k message with
  | Some v => is_object v && (truthy (opt_prop v "path") || truthy (opt_prop v "href"))
  | None => false
  end.

Inductive Outcome :=
| Rejected (msg : string)
| Queued (message : list (string * JVal)).

Definition dq : string := String (ascii_of_nat 34) EmptyString.

Definition no_path_msg (k : string) : string :=
  dq ++ k ++ dq ++ " cannot use " ++ dq ++ "path" ++ dq ++ " nor " ++ dq ++ "href" ++ dq
  ++ " properties".

Definition flags : list (string * JVal) :=
  [("disableFileAccess", JBool true); ("disableUrlAccess", JBool true)].

Definition create (body : JVal) : Outcome :=
  match body with
  | JObj fields =>
      let message := pick whitelist fields in
      let atts := lookup "attachments" message in
      match atts with
      | None | Some JUndef | Some (JArr _) =>
          match match atts with Some (JArr l) => some_path_href l | _ => Some false end with
          | None => Rejected "TypeError"
          | Some true => Rejected (no_path_msg "attachments")
          | Some false =>
              if uses_path message "text" then Rejected (no_path_msg "text")
              else if uses_path message "html" then Rejected (no_path_msg "html")
              else if uses_path message "watchHtml" then Rejected (no_path_msg "watchHtml")
              else Queued (message ++ flags)
          end
      | Some _ =>
          Rejected ("Attachments option " ++ dq ++ "attachments" ++ dq ++ " must be an Array if set")
      end
  | _ => Rejected "Body must be an object"
  end.

Definition ex_body : JVal :=
  JObj [("to", JStr "a@example.com"); ("envelope", JObj [("from", JStr "x@example.com")]);
        ("attachments", JArr [JObj [("filename", JStr "a.txt"); ("content", JStr "hi")]]);
        ("text", JStr "hello"); ("from", JStr "b@example.com")].

Lemma lookup_app k l1 l2 :
  lookup k (l1 ++ l2) = match lookup k l1 with Some v => Some v | None => lookup k l2 end.
Proof.
  induction l1 as [|[k' v] l1 IH]; simpl; auto.
  destruct (String.eqb k k'); auto.
Qed.

Lemma lookup_pick keys fields k :
  lookup k (pick keys fields) = if existsb (String.eqb k) keys then lookup k fields else None.
Proof.
  induction keys as [|k1 keys IH]; simpl; auto.
  rewrite lookup_app. destruct (lookup k1 fields) as [v|] eqn:E; simpl.
  - destruct (String.eqb k k1) eqn:Ek; simpl; auto.
    apply String.eqb_eq in Ek. subst. auto.
  - rewrite IH. destruct (String.eqb k k1) eqn:Ek; simpl; auto.
    apply String.eqb_eq in Ek. subst. rewrite E. destruct (existsb _ keys); auto.
Qed.

Lemma in_pick keys fields k v : In (k, v) (pick keys fields) -> In k keys.
Proof.
  unfold pick. rewrite in_flat_map. intros [k' [Hk Hin]].
  destruct (lookup k' fields); simpl in Hin; [|contradiction].
  destruct Hin as [[= <- _]|[]]. exact Hk.
Qed.

Lemma existsb_whitelist k : existsb (String.eqb k) whitelist = true <-> In k whitelist.
Proof.
  rewrite existsb_exists. split.
  - intros [x [Hx E]]. apply String.eqb_eq in E. subst. exact Hx.
  - intros H. exists k. split; auto. apply String.eqb_refl.
Qed.

Lemma some_path_href_false l :
  some_path_href l = Some false ->
  forall a, In a l -> exists p h, get_prop a "path" = Some p /\ get_prop a "href" = Some h /\
                                  truthy p = false /\ truthy h = false.
Proof.
  induction l as [|a0 l IH]; simpl; [intros _ a []|].
  destruct (get_prop a0 "path") as [p|] eqn:Ep; [|discriminate].
  destruct (truthy p) eqn:Tp; [discriminate|].
  destruct (get_prop a0 "href") as [h|] eqn:Eh; [|discriminate].
  destruct (truthy h) eqn:Th; [discriminate|].
  intros H a [<-|Hin].
  - exists p, h. auto.
  - apply IH; auto.
Qed.

Lemma some_path_href_false_iff l :
  (forall a, In a l -> exists p h, get_prop a "path" = Some p /\ get_prop a "href" = Some h /\
                                   truthy p = false /\ truthy h = false) ->
  some_path_href l = Some false.
Proof.
  induction l as [|a0 l IH]; simpl; auto. intros H.
  destruct (H a0 (or_introl eq_refl)) as (p & h & -> & -> & -> & ->).
  apply IH. intros a Ha. apply H. auto.
Qed.

Lemma uses_path_false message k :
  uses_path message k = false ->
  forall fs, lookup k message = Some (JObj fs) ->
  truthy (opt_prop (JObj fs) "path") = false /\ truthy (opt_prop (JObj fs) "href") = false.
Proof.
  unfold uses_path. intros H fs E. rewrite E in H. simpl in H.
  apply orb_false_iff in H. exact H.
Qed.

(** What [create] hands to [Emails.queue]: the body was an object; the
    message has only whitelisted keys and the two overrides, both
    [true]; each whitelisted key has the body's value and every other key
    of the body (such as [envelope] or [dkim]) is dropped. *)
Theorem create_queued_message body m :
  create body = Queued m ->
  exists fields, body = JObj fields /\
    (forall k v, In (k, v) m -> In k whitelist \/ k = "disableFileAccess" \/ k = "disableUrlAccess") /\
    lookup "disableFileAccess" m = Some (JBool true) /\
    lookup "disableUrlAccess" m = Some (JBool true) /\
    (forall k, In k whitelist -> lookup k m = lookup k fields).
Proof.
  destruct body as [| | | | | |fields]; cbn [create]; try discriminate.
  intros H. exists fields. split; auto.
  assert (Hm : m = (pick whitelist fields ++ flags)%list).
  { set (msg := pick whitelist fields) in *.
    destruct (lookup "attachments" msg) as [[| | | | |l|]|];
      try discriminate;
      [|destruct (some_path_href l) as [[]|]; try discriminate|];
      repeat match goal with
             | H : context [if ?c then _ else _] |- _ => destruct c; [discriminate|]
             end;
      congruence. }
  subst m. split; [|split; [|split]].
  - intros k v Hin. apply in_app_or in Hin as [Hin|Hin].
    + left. eapply in_pick; eauto.
    + right. destruct Hin as [[= <- _]|[[= <- _]|[]]]; auto.
  - rewrite lookup_app, lookup_pick. reflexivity.
  - rewrite lookup_app, lookup_pick. reflexivity.
  - intros k Hk. rewrite lookup_app, lookup_pick.
    apply existsb_whitelist in Hk. rewrite Hk. destruct (lookup k fields); auto.
    unfold flags; simpl.
    destruct (String.eqb k "disableFileAccess") eqn:E1;
      [apply String.eqb_eq in E1; subst; vm_compute in Hk; discriminate|].
    destruct (String.eqb k "disableUrlAccess") eqn:E2;
      [apply String.eqb_eq in E2; subst; vm_compute in Hk; discriminate|].
    reflexivity.
Qed.

Definition attachments_safe (v : option JVal) : Prop :=
  match v with
  | None | Some JUndef => True
  | Some (JArr l) =>
      forall a, In a l -> exists p h, get_prop a "path" = Some p /\ get_prop a "href" = Some h /\
                                      truthy p = false /\ truthy h = false
  | Some _ => False
  end.

Definition content_keys : list string := ["text"; "html"; "watchHtml"].

Lemma lookup_content_queued k msg :
  In k content_keys -> lookup k (msg ++ flags)%list = lookup k msg.
Proof.
  rewrite lookup_app. intros Hk. destruct (lookup k msg); auto.
  destruct Hk as [<-|[<-|[<-|[]]]]; reflexivity.
Qed.

Lemma lookup_attachments_queued msg :
  lookup "attachments" (msg ++ flags)%list = lookup "attachments" msg.
Proof. rewrite lookup_app. destruct (lookup "attachments" msg); auto. Qed.

(** Nothing [create] queues can make nodemailer read a file or a URL:
    the attachments are absent, [undefined] or an array none of whose
    elements is [null], [undefined] or has a truthy [path] or [href];
    an object given as [text], [html] or [watchHtml] has no truthy
    [path] or [href]. *)
Theorem create_queued_no_path body m :
  create body = Queued m ->
  attachments_safe (lookup "attachments" m) /\
  (forall k fs, In k content_keys -> lookup k m = Some (JObj fs) ->
   truthy (opt_prop (JObj fs) "path") = false /\ truthy (opt_prop (JObj fs) "href") = false).
Proof.
  destruct body as [| | | | | |fields]; cbn [create]; try discriminate.
  set (msg := pick whitelist fields).
  destruct (lookup "attachments" msg) as [[| | | | |l|]|] eqn:Ea; try discriminate;
    [| destruct (some_path_href l) as [[]|] eqn:Es; try discriminate |];
    repeat match goal with
           | |- context [if ?c then _ else _] => destruct c eqn:?; [discriminate|]
           end;
    intros H; injection H as <-;
    (split;
     [ rewrite lookup_attachments_queued, Ea; simpl; auto; apply some_path_href_false; auto
     | intros k fs Hk; rewrite lookup_content_queued by exact Hk; intros Hl;
       destruct Hk as [<-|[<-|[<-|[]]]];
       [ apply (uses_path_false msg "text") | apply (uses_path_false msg "html")
       | apply (uses_path_false msg "watchHtml") ]; assumption ]).
Qed.

Lemma create_queued_no_path_witness :
  create ex_body = Queued (match create ex_body with Queued m => m | Rejected _ => [] end) /\
  attachments_safe (lookup "attachments" (match create ex_body with Queued m => m | Rejected _ => [] end)) /\
  (forall k fs, In k content_keys ->
   lookup k (match create ex_body with Queued m => m | Rejected _ => [] end) = Some (JObj fs) ->
   truthy (opt_prop (JObj fs) "path") = false /\ truthy (opt_prop (JObj fs) "href") = false).
Proof.
  assert (H : create ex_body = Queued (match create ex_body with Queued m => m | Rejected _ => [] end))
    by (vm_compute; reflexivity).
  split; [exact H|]. apply (create_queued_no_path ex_body). exact H.
Defined.

Lemma create_queued_message_witness :
  create ex_body = Queued (match create ex_body with Queued m => m | Rejected _ => [] end) /\
  exists fields, ex_body = JObj fields /\
    (forall k v, In (k, v) (match create ex_body with Queued m => m | Rejected _ => [] end) ->
       In k whitelist \/ k = "disableFileAccess" \/ k = "disableUrlAccess") /\
    lookup "disableFileAccess" (match create ex_body with Queued m => m | Rejected _ => [] end)
      = Some (JBool true) /\
    lookup "disableUrlAccess" (match create ex_body with Queued m => m | Rejected _ => [] end)
      = Some (JBool true) /\
    (forall k, In k whitelist ->
       lookup k (match create ex_body with Queued m => m | Rejected _ => [] end) = lookup k fields).
Proof.
  assert (H : create ex_body = Queued (match create ex_body with Queued m => m | Rejected _ => [] end))
    by (vm_compute; reflexivity).
  split; [exact H|]. apply (create_queued_message ex_body). exact H.
Defined.

(** Conversely, [create] queues every object body whose attachments and
    [text], [html] and [watchHtml] pass those checks: the message is the
    picked fields followed by the two overrides. *)
Theorem create_accepts fields :
  attachments_safe (lookup "attachments" fields) ->
  (forall k v, In k content_keys -> lookup k fields = Some v -> is_object v = true ->
   truthy (opt_prop v "path") = false /\ truthy (opt_prop v "href") = false) ->
  create (JObj fields) = Queued (pick whitelist fields ++ flags)%list.
Proof.
  intros Ha Hc. cbn [create].
  assert (Hu : forall k, In k content_keys -> uses_path (pick whitelist fields) k = false).
  { intros k Hk. unfold uses_path. rewrite lookup_pick.
    assert (Hw : In k whitelist) by (destruct Hk as [<-|[<-|[<-|[]]]]; simpl; tauto).
    apply existsb_whitelist in Hw. rewrite Hw.
    destruct (lookup k fields) as [v|] eqn:Ev; auto.
    destruct (is_object v) eqn:Eo; auto. simpl.
    destruct (Hc k v Hk Ev Eo) as [-> ->]. reflexivity. }
  rewrite (Hu "text"), (Hu "html"), (Hu "watchHtml") by (simpl; tauto).
  rewrite lookup_pick. simpl existsb.
  destruct (lookup "attachments" fields) as [[| | | | |l|]|]; simpl in Ha; try contradiction;
    auto.
  rewrite (some_path_href_false_iff l Ha). reflexivity.
Qed.

Lemma create_accepts_witness :
  create (JObj [("subject", JStr "hi"); ("attachments", JArr [JObj [("filename", JStr "a.txt")]]);
                ("html", JObj [("content", JStr "<b>hi</b>"); ("path", JStr "")])])
  = Queued (pick whitelist [("subject", JStr "hi"); ("attachments", JArr [JObj [("filename", JStr "a.txt")]]);
                ("html", JObj [("content", JStr "<b>hi</b>"); ("path", JStr "")])] ++ flags)%list.
Proof.
  apply create_accepts.
  - simpl. intros a [<-|[]]. exists JUndef, JUndef. auto.
  - intros k v Hk. destruct Hk as [<-|[<-|[<-|[]]]]; simpl; intros E; try discriminate.
    injection E as <-. auto.
Defined.

End EmailsCreate.

(** * The SQLite cleanup job ([src/jobs/cleanup-sqlite.js])

    The scan of the mount directory (lines 98-140), the storage threshold
    (lines 290-296) and the once-a-week check of the threshold notice
    (lines 301-314, 357). The file system is given by the directory
    listing and [stat], which may reject ([None]); [unlink] may reject
    too. A rejection ends the scan in the outer [catch]. *)
Module CleanupSqlite.

Local Open Scope string_scope.

Definition AFFIXES : list string := ["-backup"; "-backup-wal"; "-backup-shm"].

Definition ms_4h : Z := 4 * 60 * 60 * 1000.

Record FileEnt := mkFileEnt { fname : string; fisFile : bool }.
Record DirEnt := mkDirEnt { dname : string; disDirectory : bool; files : list FileEnt }.
Record Stat := mkStat { sisFile : bool; mtimeMs : Z }.

(** [s.endsWith(x)] *)
Definition ends_with (x s : string) : bool :=
  (String.length x <=? String.length s)%nat &&
  String.eqb (substring (String.length s - String.length x) (String.length x) s) x.

(** index of the last ['.'] *)
Fixpoint last_dot (s : string) (i : nat) : option nat :=
  match s with
  | EmptyString => None
  | String c s' =>
      match last_dot s' (S i) with
      | Some j => Some j
      | None => if Ascii.eqb c "." then Some i else None
      end
  end.

(** [path.extname] of a file name without separators: from the last dot,
    unless there is none or it is the first character. *)
Definition extname (s : string) : string :=
  match last_dot s 0 with
  | None | Some 0 => ""
  | Some i => substring i (String.length s - i) s
  end.

(** [path.basename(name, ext)] with [ext] a suffix of [name] other than
    [name] itself *)
Definition basename (s ext : string) : string :=
  if ends_with ext s && negb (String.eqb s ext)
  then substring 0 (String.length s - String.length ext) s else s.

(** [s.replace(pat, rep)] with a string pattern: the first occurrence. *)
Fixpoint replace_first (pat rep s : string) : string :=
  if String.prefix pat s then rep ++ substring (String.length pat) (String.length s - String.length pat) s
  else match s with
       | EmptyString => EmptyString
       | String c s' => String c (replace_first pat rep s')
       end.

Definition path_join (a b c : string) : string := a ++ "/" ++ b ++ "/" ++ c.

(** [ids.add(x)] on a Set kept in insertion order *)
Definition set_add (x : string) (ids : list string) : list string :=
  if existsb (String.eqb x) ids then ids else (ids ++ [x])%list.

Section Scan.

Variable mountDir : string.
Variable now : Z.
Variable stat : string -> option Stat.
Variable unlink_ok : string -> bool.

Definition Acc := (list string * list string)%type.

(** the [for (const affix of AFFIXES)] loop for one file *)
Fixpoint affix_loop (affixes : list string) (b filePath : string) (acc : Acc) : option Acc :=
  match affixes with
  | [] => Some acc
  | affix :: rest =>
      let (ids, paths) := acc in
      if negb (ends_with affix b) then
        affix_loop rest b filePath (set_add (replace_first "-tmp" "" b) ids, paths)
      else
        match stat filePath with
        | None => None
        | Some st =>
            if negb (sisFile st) then affix_loop rest b filePath acc
            else if negb (Z.eqb (mtimeMs st) 0) && (mtimeMs st <=? now - ms_4h)%Z then
              if unlink_ok filePath then Some (ids, (paths ++ [filePath])%list) else None
            else Some acc
        end
  end.

Definition scan_file (d : DirEnt) (f : FileEnt) (acc : Acc) : option Acc :=
  if negb (fisFile f) then Some acc
  else if negb (String.eqb (extname (fname f)) ".sqlite") then Some acc
  else affix_loop AFFIXES (basename (fname f) (extname (fname f)))
         (path_join mountDir (dname d) (fname f)) acc.

Fixpoint scan_files (d : DirEnt) (fs : list FileEnt) (acc : Acc) : option Acc :=
  match fs with
  | [] => Some acc
  | f :: fs' => match scan_file d f acc with
                | None => None
                | Some acc' => scan_files d fs' acc'
                end
  end.

Fixpoint scan (dirents : list DirEnt) (acc : Acc) : option Acc :=
  match dirents with
  | [] => Some acc
  | d :: ds =>
      if negb (disDirectory d) then scan ds acc
      else match scan_files d (files d) acc with
           | None => None
           | Some acc' => scan ds acc'
           end
  end.

End Scan.

(** [threshold] of lines 290-293 *)
Definition threshold_of (percentageUsed : Z) : option Z :=
  fold_left (fun t p => if (p <=? percentageUsed)%Z then Some p else t)
    [50; 60; 70; 80; 90; 100]%Z None.

(** A value of [storage_thresholds_sent_at[t]]: a [Date] or some other
    value, with its truthiness. *)
Inductive Stamp := SDate (ms : Z) | SOther (truthy : bool).

(** [alias.storage_thresholds_sent_at], keyed by [threshold.toString()] *)
Inductive SentAt :=
| SentUndef
| SentNull
| SentObj (m : list (Z * Stamp)).

Fixpoint stamp_lookup (k : Z) (m : list (Z * Stamp)) : option Stamp :=
  match m with
  | [] => None
  | (k', v) :: m' => if Z.eqb k k' then Some v else stamp_lookup k m'
  end.

Fixpoint stamp_set (k : Z) (v : Stamp) (m : list (Z * Stamp)) : list (Z * Stamp) :=
  match m with
  | [] => [(k, v)]
  | (k', v') :: m' => if Z.eqb k k' then (k', v) :: m' else (k', v') :: stamp_set k v m'
  end.

Inductive Notice :=
| NoThreshold
| AlreadySent
| TypeErr
| Send (threshold : Z) (sent_at : SentAt).

Section Notice.

(** [dayjs().subtract(1, 'week')] at a time, in ms *)
Variable week_ago : Z -> Z.

(** lines 290-314 and 357, for a domain that is found and a notice that
    is sent *)
Definition notice (now percentageUsed : Z) (sent : SentAt) : Notice :=
  match threshold_of percentageUsed with
  | None => NoThreshold
  | Some t =>
      let skip :=
        match sent with
        | SentUndef => Some false
        | SentNull => None
        | SentObj m =>
            Some (match stamp_lookup t m with
                  | Some (SDate ms) => (week_ago now <=? ms)%Z
                  | _ => false
                  end)
        end in
      match skip with
      | None => TypeErr
      | Some true => AlreadySent
      | Some false =>
          let m := match sent with SentObj m => m | _ => [] end in
          Send t (SentObj (stamp_set t (SDate now) m))
      end
  end.

End Notice.

Definition ex_dirents : list DirEnt :=
  [mkDirEnt "storage" true
     [mkFileEnt "64f0c0ffee.sqlite" true; mkFileEnt "64f0c0ffee-backup.sqlite" true;
      mkFileEnt "64f0beef-tmp-backup-wal.sqlite" true; mkFileEnt "64f0c0ffee.sqlite-wal" true;
      mkFileEnt "64f0dead-tmp.sqlite" true];
   mkDirEnt "lost+found.sqlite" false []].

Definition ex_stat (p : string) : option Stat := Some (mkStat true 1000).

(** [p] is the path of a regular [.sqlite] file of a directory of the
    listing whose base name ends with one of [AFFIXES], and [stat] found
    a regular file last modified at a nonzero time at least 4 hours ago. *)
Definition stale_backup (mountDir : string) (now : Z) (stat : string -> option Stat)
  (dirents : list DirEnt) (p : string) : Prop :=
  exists d f st,
    In d dirents /\ disDirectory d = true /\ In f (files d) /\ fisFile f = true /\
    extname (fname f) = ".sqlite" /\ p = path_join mountDir (dname d) (fname f) /\
    (exists a, In a AFFIXES /\ ends_with a (basename (fname f) (extname (fname f))) = true) /\
    stat p = Some st /\ sisFile st = true /\ mtimeMs st <> 0%Z /\ (mtimeMs st <= now - ms_4h)%Z.

(** [x] is the base name, with its first [-tmp] removed, of a regular
    [.sqlite] file of a directory of the listing. *)
Definition sqlite_id (dirents : list DirEnt) (x : string) : Prop :=
  exists d f,
    In d dirents /\ disDirectory d = true /\ In f (files d) /\ fisFile f = true /\
    extname (fname f) = ".sqlite" /\
    x = replace_first "-tmp" "" (basename (fname f) (extname (fname f))).

Lemma set_add_In x y ids : In y (set_add x ids) <-> In y ids \/ y = x.
Proof.
  unfold set_add. destruct (existsb (String.eqb x) ids) eqn:E.
  - split; [auto|]. intros [H| ->]; auto.
    apply existsb_exists in E as [z [Hz Ez]]. apply String.eqb_eq in Ez. subst. auto.
  - rewrite in_app_iff. simpl. split; intros [H|H]; try (destruct H as [H|[]]); subst; auto.
Qed.

Section ScanProofs.

Variables (mountDir : string) (now : Z) (stat : string -> option Stat) (unlink_ok : string -> bool).

Lemma affix_loop_inv affs b fp ids del ids' del' :
  affix_loop now stat unlink_ok affs b fp (ids, del) = Some (ids', del') ->
  (forall x, In x ids' -> In x ids \/ x = replace_first "-tmp" "" b) /\
  (forall x, In x ids -> In x ids') /\
  (forall p, In p del' -> In p del \/
     (p = fp /\ (exists a, In a affs /\ ends_with a b = true) /\
      exists st, stat fp = Some st /\ sisFile st = true /\ mtimeMs st <> 0%Z /\
                 (mtimeMs st <= now - ms_4h)%Z)).
Proof.
  revert ids del. induction affs as [|a affs IH]; intros ids del; simpl.
  - intros [= <- <-]. auto.
  - destruct (ends_with a b) eqn:Ea; simpl.
    + destruct (stat fp) as [st|] eqn:Es; [|discriminate].
      destruct (sisFile st) eqn:Ef; simpl.
      * destruct (negb (mtimeMs st =? 0)%Z && (mtimeMs st <=? now - ms_4h)%Z) eqn:Eo.
        -- destruct (unlink_ok fp); [|discriminate]. intros [= <- <-].
           split; [auto|]. split; [auto|]. intros p Hp. apply in_app_or in Hp as [Hp|[<-|[]]]; auto.
           right. apply andb_true_iff in Eo as [E1 E2]. apply negb_true_iff, Z.eqb_neq in E1.
           apply Z.leb_le in E2. split; [auto|]. split; [exists a; auto|]. exists st. auto.
        -- intros [= <- <-]. auto.
      * intros H. destruct (IH _ _ H) as (H1 & H2 & H3). split; [auto|]. split; [auto|].
        intros p Hp. destruct (H3 p Hp) as [Hd|(-> & (a' & Ha' & Ea') & Hst)]; auto.
        right. split; [auto|]. split; [exists a'; auto|auto].
    + intros H. destruct (IH _ _ H) as (H1 & H2 & H3). split; [|split].
      * intros x Hx. destruct (H1 x Hx) as [Hx'|]; auto. apply set_add_In in Hx' as [|]; auto.
      * intros x Hx. apply H2, set_add_In. auto.
      * intros p Hp. destruct (H3 p Hp) as [Hd|(-> & (a' & Ha' & Ea') & Hst)]; auto.
        right. split; [auto|]. split; [exists a'; auto|auto].
Qed.

Lemma affix_loop_first_id b fp ids del ids' del' :
  ends_with "-backup" b = false ->
  affix_loop now stat unlink_ok AFFIXES b fp (ids, del) = Some (ids', del') ->
  In (replace_first "-tmp" "" b) ids'.
Proof.
  intros E H.
  assert (Hs : affix_loop now stat unlink_ok AFFIXES b fp (ids, del) =
               affix_loop now stat unlink_ok ["-backup-wal"; "-backup-shm"] b fp
                 (set_add (replace_first "-tmp" "" b) ids, del))
    by (unfold AFFIXES; cbn [affix_loop]; rewrite E; reflexivity).
  rewrite Hs in H.
  apply affix_loop_inv in H as (_ & H & _). apply H, set_add_In. auto.
Qed.

Lemma scan_files_inv d fs ids del ids' del' :
  scan_files mountDir now stat unlink_ok d fs (ids, del) = Some (ids', del') ->
  (forall x, In x ids' -> In x ids \/ exists f, In f fs /\ fisFile f = true /\
     extname (fname f) = ".sqlite" /\
     x = replace_first "-tmp" "" (basename (fname f) (extname (fname f)))) /\
  (forall x, In x ids -> In x ids') /\
  (forall f, In f fs -> fisFile f = true -> extname (fname f) = ".sqlite" ->
     ends_with "-backup" (basename (fname f) (extname (fname f))) = false ->
     In (replace_first "-tmp" "" (basename (fname f) (extname (fname f)))) ids') /\
  (forall p, In p del' -> In p del \/ exists f st, In f fs /\ fisFile f = true /\
     extname (fname f) = ".sqlite" /\ p = path_join mountDir (dname d) (fname f) /\
     (exists a, In a AFFIXES /\ ends_with a (basename (fname f) (extname (fname f))) = true) /\
     stat p = Some st /\ sisFile st = true /\ mtimeMs st <> 0%Z /\ (mtimeMs st <= now - ms_4h)%Z).
Proof.
  revert ids del. induction fs as [|f fs IH]; intros ids del; cbn [scan_files].
  - intros [= <- <-]. split; [auto|]. split; [auto|]. split; [intros _ []|auto].
  - destruct (scan_file mountDir now stat unlink_ok d f (ids, del)) as [[ids1 del1]|] eqn:Ef;
      [|discriminate].
    unfold scan_file in Ef. intros H.
    destruct (IH _ _ H) as (I1 & I2 & I3 & I4).
    destruct (fisFile f) eqn:Hf; cbn [negb] in Ef;
      [destruct (String.eqb (extname (fname f)) ".sqlite") eqn:Hx; cbn [negb] in Ef|].
    + apply String.eqb_eq in Hx.
      pose proof (affix_loop_inv _ _ _ _ _ _ _ Ef) as (A1 & A2 & A3).
      split; [|split; [|split]].
      * intros x Hx'. destruct (I1 x Hx') as [Hx1|(f' & ? & ? & ? & ?)]; [|right; exists f'; simpl; intuition].
        destruct (A1 x Hx1) as [| ->]; auto. right. exists f. simpl; intuition.
      * auto.
      * intros f' [<-|Hf'] Hff Hxf Hb; auto.
        apply I2. eapply affix_loop_first_id; eauto.
      * intros p Hp. destruct (I4 p Hp) as [Hp1|(f' & st & ?)]; [|right; exists f', st; simpl; intuition].
        destruct (A3 p Hp1) as [|(-> & Ha & st & Hst)]; auto.
        right. exists f, st. rewrite Hx in *. simpl; intuition.
    + injection Ef as <- <-. split; [|split; [|split]].
      * intros x Hx'. destruct (I1 x Hx') as [|(f' & ? & ? & ? & ?)]; auto. right. exists f'. simpl; intuition.
      * auto.
      * intros f' [<-|Hf'] Hff Hxf Hb; auto. rewrite Hxf in Hx. discriminate.
      * intros p Hp. destruct (I4 p Hp) as [|(f' & st & ?)]; auto. right. exists f', st. simpl; intuition.
    + injection Ef as <- <-. split; [|split; [|split]].
      * intros x Hx'. destruct (I1 x Hx') as [|(f' & ? & ? & ? & ?)]; auto. right. exists f'. simpl; intuition.
      * auto.
      * intros f' [<-|Hf'] Hff Hxf Hb; auto. congruence.
      * intros p Hp. destruct (I4 p Hp) as [|(f' & st & ?)]; auto. right. exists f', st. simpl; intuition.
Qed.

Lemma scan_inv dirents ids del ids' del' :
  scan mountDir now stat unlink_ok dirents (ids, del) = Some (ids', del') ->
  (forall x, In x ids' -> In x ids \/ sqlite_id dirents x) /\
  (forall x, In x ids -> In x ids') /\
  (forall d f, In d dirents -> disDirectory d = true -> In f (files d) -> fisFile f = true ->
     extname (fname f) = ".sqlite" ->
     ends_with "-backup" (basename (fname f) (extname (fname f))) = false ->
     In (replace_first "-tmp" "" (basename (fname f) (extname (fname f)))) ids') /\
  (forall p, In p del' -> In p del \/ stale_backup mountDir now stat dirents p).
Proof.
  revert ids del. induction dirents as [|d ds IH]; intros ids del; simpl.
  - intros [= <- <-]. split; [auto|]. split; [auto|]. split; [intros _ _ []|auto].
  - destruct (disDirectory d) eqn:Hd; simpl.
    + destruct (scan_files mountDir now stat unlink_ok d (files d) (ids, del)) as [[ids1 del1]|] eqn:Ef;
        [|discriminate].
      intros H. destruct (IH _ _ H) as (I1 & I2 & I3 & I4).
      destruct (scan_files_inv _ _ _ _ _ _ Ef) as (F1 & F2 & F3 & F4).
      split; [|split; [|split]].
      * intros x Hx. destruct (I1 x Hx) as [Hx1|(d' & f' & ?)].
        -- destruct (F1 x Hx1) as [|(f & ?)]; auto. right. exists d, f. simpl; intuition.
        -- right. exists d', f'. simpl; intuition.
      * auto.
      * intros d' f [<-|Hd'] Hdd Hf Hff Hx Hb; eauto.
      * intros p Hp. destruct (I4 p Hp) as [Hp1|(d' & f' & st & ?)].
        -- destruct (F4 p Hp1) as [|(f & st & ?)]; auto. right. exists d, f, st. simpl; intuition.
        -- right. exists d', f', st. simpl; intuition.
    + intros H. destruct (IH _ _ H) as (I1 & I2 & I3 & I4).
      split; [|split; [|split]].
      * intros x Hx. destruct (I1 x Hx) as [|(d' & f' & ?)]; auto. right. exists d', f'. simpl; intuition.
      * auto.
      * intros d' f [<-|Hd'] Hdd; eauto. congruence.
      * intros p Hp. destruct (I4 p Hp) as [|(d' & f' & st & ?)]; auto.
        right. exists d', f', st. simpl; intuition.
Qed.

End ScanProofs.



(** The ids the scan collects are exactly the base names (first [-tmp]
    removed) of regular [.sqlite] files, and every such file whose base
    name does not end with [-backup] gives its id; so a
    [<x>-backup-wal.sqlite] or [<x>-backup-shm.sqlite] file contributes
    the id [<x>-backup-wal] or [<x>-backup-shm]. *)
Theorem scan_ids mountDir now stat unlink_ok dirents ids del :
  scan mountDir now stat unlink_ok dirents ([], []) = Some (ids, del) ->
  (forall x, In x ids -> sqlite_id dirents x) /\
  (forall d f, In d dirents -> disDirectory d = true -> In f (files d) -> fisFile f = true ->
     extname (fname f) = ".sqlite" ->
     ends_with "-backup" (basename (fname f) (extname (fname f))) = false ->
     In (replace_first "-tmp" "" (basename (fname f) (extname (fname f)))) ids).
Proof.
  intros H. destruct (scan_inv _ _ _ _ _ _ _ _ _ H) as (I & _ & C & _).
  split; auto. intros x Hx. destruct (I x Hx) as [[]|]; auto.
Qed.

Lemma scan_ids_witness :
  scan "/mnt" (1000 + ms_4h)%Z ex_stat (fun _ => true) ex_dirents ([], []) =
    Some (["64f0c0ffee"; "64f0beef-backup-wal"; "64f0dead"],
          ["/mnt/storage/64f0c0ffee-backup.sqlite"; "/mnt/storage/64f0beef-tmp-backup-wal.sqlite"]) /\
  (forall x, In x ["64f0c0ffee"; "64f0beef-backup-wal"; "64f0dead"] -> sqlite_id ex_dirents x) /\
  (forall d f, In d ex_dirents -> disDirectory d = true -> In f (files d) -> fisFile f = true ->
     extname (fname f) = ".sqlite" ->
     ends_with "-backup" (basename (fname f) (extname (fname f))) = false ->
     In (replace_first "-tmp" "" (basename (fname f) (extname (fname f))))
        ["64f0c0ffee"; "64f0beef-backup-wal"; "64f0dead"]).
Proof.
  assert (H : scan "/mnt" (1000 + ms_4h)%Z ex_stat (fun _ => true) ex_dirents ([], []) =
    Some (["64f0c0ffee"; "64f0beef-backup-wal"; "64f0dead"],
          ["/mnt/storage/64f0c0ffee-backup.sqlite"; "/mnt/storage/64f0beef-tmp-backup-wal.sqlite"]))
    by (vm_compute; reflexivity).
  split; [exact H|]. exact (scan_ids _ _ _ _ _ _ _ H).
Defined.

(** The threshold is the largest of 50, 60, ..., 100 not above the
    percentage used: none below 50, the percentage rounded down to a
    multiple of ten up to 100, and 100 from there on. *)
Theorem threshold_of_spec p :
  threshold_of p = if (p <? 50)%Z then None else Some (Z.min 100 (10 * (p / 10)))%Z.
Proof.
  unfold threshold_of; cbn [fold_left].
  destruct (Z.ltb_spec p 50);
  repeat match goal with |- context [(?a <=? ?b)%Z] => destruct (Z.leb_spec a b) end;
  try lia; f_equal; Z.div_mod_to_equations; lia.
Qed.





(** A [null] [storage_thresholds_sent_at] passes the [typeof] test of
    line 302 and the read of the threshold key throws: for such an alias
    no notice is ever sent, whatever its usage. *)
Theorem notice_null_sent_at week_ago now p :
  (50 <= p)%Z -> notice week_ago now p SentNull = TypeErr.
Proof.
  intros Hp. unfold notice. rewrite threshold_of_spec.
  destruct (Z.ltb_spec p 50); [lia|]. reflexivity.
Qed.

Lemma notice_null_sent_at_witness :
  (50 <= 97)%Z /\ notice (fun t => (t - 604800000)%Z) 1000%Z 97%Z SentNull = TypeErr.
Proof. split; [lia|]. apply notice_null_sent_at. lia. Defined.

End CleanupSqlite.

(** * [checkTTI] ([src/jobs/tti.js], lines 131-424)

    One run of the time-to-inbox check, with the answers of Redis, the
    clock and the measurement given by a world. A Redis reply is an
    error (the awaited call rejects) or a value; [tti] and [tti_lock]
    are read as strings, [null] and the empty string being falsy. The
    measurement of all providers (lines 179-354) either yields the
    providers' times or rejects. The trace lists the Redis writes, the
    admin alert and the rescheduling [setTimeout]. *)
Module TTI.

Local Open Scope Z_scope.

Record Provider := mkProvider { pname : string; directMs : Z; forwardingMs : Z }.

(** the parsed [tti] cache: [created_at] as a time, [None] for an
    invalid date, or a value on which [JSON.parse] or [providers.every]
    throws *)
Inductive Cached :=
| Parsed (created_at : option Z) (providers : list Provider)
| Malformed.

Inductive Reply (A : Type) := RErr | RVal (v : A).
Arguments RErr {A}.
Arguments RVal {A} v.

Record World := mkWorld {
  get_tti : Reply (option Cached);   (* [None]: null or empty *)
  now : Z;
  get_lock : Reply bool;             (* the truthiness of [tti_lock] *)
  set_lock_ok : bool;
  measure : option (list Provider);
  set_tti_ok : bool;
  get_admin : Reply bool;            (* the truthiness of [tti_admin_email] *)
  email_ok : bool;
  set_admin_ok : bool
}.

Inductive Event :=
| SetLock
| SetTTI
| Email
| SetAdmin
| DelLock
| Reschedule.

Inductive Exit := Returned | Finished | Threw.

Definition ms_5m : Z := 5 * 60 * 1000.

(** the test of lines 144-149 *)
Definition healthy (p : Provider) : bool :=
  negb (directMs p =? 0) && (directMs p <=? 10000) &&
  negb (forwardingMs p =? 0) && (forwardingMs p <=? 10000).

(** the test of lines 369-374 *)
Definition alert (p : Provider) : bool :=
  (directMs p =? 0) || (forwardingMs p =? 0) || (10000 <=? directMs p) || (10000 <=? forwardingMs p).

Definition fresh (t : Z) (created_at : option Z) : bool :=
  match created_at with Some c => t - ms_5m <? c | None => false end.

(** lines 163-404, from the lock onwards *)
Definition after_cache (w : World) : list Event * Exit :=
  match get_lock w with
  | RErr => ([], Threw)
  | RVal true => ([Reschedule], Returned)
  | RVal false =>
      if negb (set_lock_ok w) then ([SetLock], Threw) else
      match measure w with
      | None => ([SetLock], Threw)
      | Some ps =>
          if negb (set_tti_ok w) then ([SetLock; SetTTI], Threw) else
          if existsb alert ps then
            match get_admin w with
            | RErr => ([SetLock; SetTTI], Threw)
            | RVal true => ([SetLock; SetTTI], Finished)
            | RVal false =>
                if negb (email_ok w) then ([SetLock; SetTTI; Email], Threw)
                else ([SetLock; SetTTI; Email; SetAdmin],
                      if set_admin_ok w then Finished else Threw)
            end
          else ([SetLock; SetTTI], Finished)
      end
  end.

(** the body of the [try] of lines 133-404 *)
Definition main (w : World) : list Event * Exit :=
  match get_tti w with
  | RErr => ([], Threw)
  | RVal (Some Malformed) => ([], Threw)
  | RVal (Some (Parsed c ps)) =>
      if fresh (now w) c && forallb healthy ps then ([Reschedule], Returned)
      else after_cache w
  | RVal None => after_cache w
  end.

(** an early [return] leaves the function; otherwise the lock is
    deleted (a failure is only logged) and the next run scheduled *)
Definition checkTTI (w : World) : list Event :=
  let (evs, ex) := main w in
  match ex with
  | Returned => evs
  | Finished | Threw => evs ++ [DelLock; Reschedule]
  end.

Definition is_reschedule (e : Event) : bool :=
  match e with Reschedule => true | _ => false end.

Ltac destruct_matches :=
  repeat (simpl; match goal with
                 | |- context [match ?x with _ => _ end] =>
                     lazymatch x with
                     | context [match _ with _ => _ end] => fail
                     | _ => destruct x
                     end
                 end).

Lemma main_shape w :
  let (evs, ex) := main w in
  ex = Returned /\ (evs = [Reschedule]) \/
  ex <> Returned /\ forallb (fun e => negb (is_reschedule e)) evs = true.
Proof.
  unfold main, after_cache. destruct_matches;
    first [left; split; reflexivity | right; split; [discriminate|reflexivity]].
Qed.

(** Every run schedules exactly one next run, as its last action: the
    early returns through their own [setTimeout], every other path,
    errors included, through the one after the [finally]-like tail. *)
Theorem checkTTI_reschedules_once w :
  exists evs, checkTTI w = evs ++ [Reschedule] /\
              forallb (fun e => negb (is_reschedule e)) evs = true.
Proof.
  unfold checkTTI. pose proof (main_shape w) as H.
  destruct (main w) as [evs ex].
  destruct H as [[-> ->]|[Hne Hf]].
  - exists []. auto.
  - destruct ex; [congruence| |]; exists (evs ++ [DelLock]);
      rewrite <- app_assoc; split; auto; rewrite forallb_app, Hf; reflexivity.
Qed.

(** The lock: a run that finds [tti_lock] set never takes it, and
    deletes it only when the read of the cache failed before; a run that
    sets it always attempts to delete it afterwards, whatever fails in
    between. *)
Theorem checkTTI_lock w :
  (get_lock w = RVal true ->
   ~ In SetLock (checkTTI w) /\
   (In DelLock (checkTTI w) -> get_tti w = RErr \/ get_tti w = RVal (Some Malformed))) /\
  (In SetLock (checkTTI w) ->
   exists pre post, checkTTI w = pre ++ [SetLock] ++ post /\ In DelLock post).
Proof.
  unfold checkTTI, main, after_cache. destruct_matches; simpl;
    (split;
     [ intros Hl;
       first [ discriminate
             | split; [intros Hin; simpl in Hin; intuition discriminate
                      |intros Hin; first [solve [auto] | exfalso; simpl in Hin; intuition discriminate]] ]
     | intros Hin;
       first [ exfalso; simpl in Hin; intuition discriminate
             | eexists [], _; split; [reflexivity | simpl; auto 10] ] ]).
Qed.



(** The skip test and the alert test are not complementary: a provider
    that fails the skip test always raises the alert, but a time of
    exactly 10000 ms passes the skip test and raises the alert too; no
    other provider passes both. *)
Theorem healthy_alert p :
  (healthy p = false -> alert p = true) /\
  (healthy p = true /\ alert p = true <->
   healthy p = true /\ (directMs p = 10000 \/ forwardingMs p = 10000)).
Proof.
  unfold healthy, alert.
  destruct (Z.eqb_spec (directMs p) 0), (Z.eqb_spec (forwardingMs p) 0),
           (Z.leb_spec (directMs p) 10000), (Z.leb_spec (forwardingMs p) 10000),
           (Z.leb_spec 10000 (directMs p)), (Z.leb_spec 10000 (forwardingMs p));
    simpl; intuition (try lia; try discriminate).
Qed.

End TTI.

(** * [onUnsubscribe] ([src/helpers/on-close.js], lines 74-125)

    Through the websocket backend ([this.wsp]) or locally. The callback
    [fn] is the caller's; it may throw, which [fn_throw] tells for each
    call. The calls of [fn] are recorded with their arguments. *)
Module OnUnsubscribe.

Local Open Scope string_scope.

Record Err := mkErr { err_message : string; imapResponse : option string }.

Inductive Val := VBool (b : bool) | VStr (s : string).

(** [fn(err, ...args)] *)
Inductive Call := mkCall (err : option Err) (args : list Val).

(** the answer of [this.wsp.request]: its [data] (if it can be spread)
    or its rejection *)
Inductive WspReply :=
| WOk (data : option (list Val))
| WErr (e : Err).

Record Mailbox := mkMailbox { mb_path : string; subscribed : bool }.

Section Unsub.

Variable fn_throw : Call -> option Err.
Variable refineAndLogError : Err -> Err.
(** the translated [IMAP_MAILBOX_DOES_NOT_EXIST] message and the
    [TypeError] of spreading a value that is not iterable *)
Variable nonexistent_msg : string.
Variable not_iterable : Err.

(** the [catch] of lines 89-92 *)
Definition wsp_catch (e : Err) : list Call :=
  match imapResponse e with
  | Some r => if String.eqb r "" then [mkCall (Some e) []] else [mkCall None [VStr r]]
  | None => [mkCall (Some e) []]
  end.

Definition onUnsubscribe_wsp (reply : WspReply) : list Call :=
  match reply with
  | WOk (Some data) =>
      let c := mkCall None data in
      match fn_throw c with
      | None => [c]
      | Some e => c :: wsp_catch e
      end
  | WOk None => wsp_catch not_iterable
  | WErr e => wsp_catch e
  end.

(** [Mailboxes.findOneAndUpdate] on [{ path }] with
    [{ $set: { subscribed: false } }]: the first mailbox with that path *)
Fixpoint unsubscribe_first (path : string) (mbs : list Mailbox) : option (list Mailbox) :=
  match mbs with
  | [] => None
  | mb :: mbs' =>
      if String.eqb (mb_path mb) path then Some (mkMailbox (mb_path mb) false :: mbs')
      else option_map (cons mb) (unsubscribe_first path mbs')
  end.

(** lines 97-124; [refresh] and [find] are the failures of
    [refreshSession] and of the update *)
Definition onUnsubscribe_local (refresh find : option Err) (path : string) (mbs : list Mailbox)
  : list Call * list Mailbox :=
  match refresh with
  | Some e => ([mkCall (Some (refineAndLogError e)) []], mbs)
  | None =>
      match find with
      | Some e => ([mkCall (Some (refineAndLogError e)) []], mbs)
      | None =>
          match unsubscribe_first path mbs with
          | None =>
              ([mkCall (Some (refineAndLogError (mkErr nonexistent_msg (Some "NONEXISTENT")))) []], mbs)
          | Some mbs' =>
              let c := mkCall None [VBool true] in
              match fn_throw c with
              | None => ([c], mbs')
              | Some e => ([c; mkCall (Some (refineAndLogError e)) []], mbs')
              end
          end
      end
  end.

End Unsub.

Definition ex_mailboxes : list Mailbox :=
  [mkMailbox "INBOX" true; mkMailbox "Archive" true; mkMailbox "Archive" true].

(** The callback is called once, and a second time only when that first
    call threw; never more than twice. A rejection carrying a non-empty
    IMAP response is reported as a success with that response. *)
Theorem onUnsubscribe_callback_count fn_throw refine msg nie reply refresh find path mbs :
  (exists c rest, onUnsubscribe_wsp fn_throw nie reply = c :: rest /\
                  (fn_throw c = None -> rest = []) /\ (List.length rest <= 1)%nat) /\
  (exists c rest, fst (onUnsubscribe_local fn_throw refine msg refresh find path mbs) = c :: rest /\
                  (fn_throw c = None -> rest = []) /\ (List.length rest <= 1)%nat) /\
  (forall e r, reply = WErr e -> imapResponse e = Some r -> r <> "" ->
               onUnsubscribe_wsp fn_throw nie reply = [mkCall None [VStr r]]).
Proof.
  split; [|split].
  - unfold onUnsubscribe_wsp, wsp_catch.
    destruct reply as [[data|]|e].
    + destruct (fn_throw (mkCall None data)) as [e|] eqn:E.
      * exists (mkCall None data).
        destruct (imapResponse e) as [r|]; [destruct (String.eqb r "")|];
          (eexists; split; [reflexivity|]; split; [congruence|simpl; lia]).
      * exists (mkCall None data), []. auto.
    + destruct (imapResponse nie) as [r|]; [destruct (String.eqb r "")|]; eexists _, []; auto.
    + destruct (imapResponse e) as [r|]; [destruct (String.eqb r "")|]; eexists _, []; auto.
  - unfold onUnsubscribe_local.
    destruct refresh; [eexists _, []; simpl; auto|].
    destruct find; [eexists _, []; simpl; auto|].
    destruct (unsubscribe_first path mbs); [|eexists _, []; simpl; auto].
    destruct (fn_throw (mkCall None [VBool true])) eqn:E; simpl.
    + eexists _, _. split; [reflexivity|]. split; [congruence|simpl; lia].
    + eexists _, []. auto.
  - intros e r -> Hr Hne. simpl. unfold wsp_catch. rewrite Hr.
    destruct (String.eqb_spec r "") as [E|E]; [contradiction|reflexivity].
Qed.

(** With a callback that throws on success, the websocket path calls it
    twice: the second call reports the callback's own error. *)
Lemma onUnsubscribe_double_call :
  onUnsubscribe_wsp (fun c => match c with mkCall None _ => Some (mkErr "boom" None) | _ => None end)
    (mkErr "not iterable" None) (WOk (Some [VBool true]))
  = [mkCall None [VBool true]; mkCall (Some (mkErr "boom" None)) []].
Proof. reflexivity. Qed.

Lemma onUnsubscribe_local_example :
  onUnsubscribe_local (fun _ => None) (fun e => e) "Mailbox does not exist" None None "Archive" ex_mailboxes
  = ([mkCall None [VBool true]],
     [mkMailbox "INBOX" true; mkMailbox "Archive" false; mkMailbox "Archive" true]).
Proof. reflexivity. Qed.

End OnUnsubscribe.

(** * [getMessage] ([src/unnamed/part_003], lines 70-130)

    One call of the polled function: the [Message-ID] headers of the
    fetched messages are walked in order, and the first one that
    contains the domain part of [info.messageId] sets [received]. *)
Module GetMessage.

Local Open Scope string_scope.

(** [s.includes(needle)] *)
Fixpoint includes (needle s : string) : bool :=
  String.prefix needle s ||
  match s with
  | EmptyString => false
  | String _ s' => includes needle s'
  end.

(** [s.split(c)] for a one-character separator *)
Fixpoint split_char (c : ascii) (s : string) : list string :=
  match s with
  | EmptyString => [EmptyString]
  | String a s' =>
      if Ascii.eqb a c then EmptyString :: split_char c s'
      else match split_char c s' with
           | [] => [String a EmptyString]
           | w :: ws => String a w :: ws
           end
  end.

(** [info.messageId.replace('<', '').replace('>', '').split('@')[1]];
    an [undefined] needle is searched for as the text [undefined]. *)
Definition needle (messageId : string) : string :=
  match nth_error (split_char "@" (CleanupSqlite.replace_first ">" ""
                     (CleanupSqlite.replace_first "<" "" messageId))) 1 with
  | Some d => d
  | None => "undefined"
  end.

(** the [for await] loop of lines 84-102 *)
Definition round (headers : list string) (messageId : string) (received : bool) : bool :=
  fold_left (fun (r : bool) (h : string) => if r then r else includes (needle messageId) h) headers received.

Definition no_char (c : ascii) (s : string) : bool :=
  forallb (fun a => negb (Ascii.eqb a c)) (list_ascii_of_string s).

Lemma substring_all s : substring 0 (String.length s) s = s.
Proof. induction s; simpl; f_equal; auto. Qed.

Lemma prefix_app p s : String.prefix p (p ++ s) = true.
Proof.
  induction p as [|a p IH]; simpl; [destruct s; auto|].
  destruct (ascii_dec a a); [exact IH|congruence].
Qed.

Lemma includes_app a n b : includes n (a ++ n ++ b) = true.
Proof.
  induction a as [|c a IH]; simpl.
  - destruct n; simpl; [destruct b; auto|].
    destruct (ascii_dec a a); [|congruence]. rewrite prefix_app. reflexivity.
  - rewrite IH. apply orb_true_r.
Qed.

Lemma prefix_char_neq (c a : ascii) s : a <> c -> String.prefix (String c EmptyString) (String a s) = false.
Proof.
  intros H. simpl. destruct (ascii_dec c a); [congruence|reflexivity].
Qed.

Lemma replace_first_cons p r a s :
  CleanupSqlite.replace_first p r (String a s) =
    if String.prefix p (String a s)
    then r ++ substring (String.length p) (String.length (String a s) - String.length p) (String a s)
    else String a (CleanupSqlite.replace_first p r s).
Proof. reflexivity. Qed.

Lemma replace_gt l :
  no_char ">" l = true ->
  CleanupSqlite.replace_first ">" "" (l ++ ">") = l.
Proof.
  induction l as [|a l IH]; intros H.
  - reflexivity.
  - simpl in H. apply andb_true_iff in H as [Ha Hl]. apply negb_true_iff, Ascii.eqb_neq in Ha.
    change (String a l ++ ">") with (String a (l ++ ">")).
    rewrite replace_first_cons, prefix_char_neq by exact Ha. rewrite IH by exact Hl. reflexivity.
Qed.

Lemma split_no_char c l :
  no_char c l = true -> forall r, split_char c (l ++ String c r) = l :: split_char c r.
Proof.
  induction l as [|a l IH]; simpl; intros H r.
  - rewrite Ascii.eqb_refl. reflexivity.
  - apply andb_true_iff in H as [Ha Hl]. apply negb_true_iff in Ha. rewrite Ha, IH by exact Hl.
    reflexivity.
Qed.

Lemma split_none c d : no_char c d = true -> split_char c d = [d].
Proof.
  induction d as [|a d IH]; simpl; intros H; auto.
  apply andb_true_iff in H as [Ha Hd]. apply negb_true_iff in Ha. rewrite Ha, IH by exact Hd.
  reflexivity.
Qed.

Lemma no_char_app c a b : no_char c (a ++ b) = no_char c a && no_char c b.
Proof.
  unfold no_char. induction a as [|x a IH]; simpl; auto. rewrite IH. apply andb_assoc.
Qed.

Lemma str_app_assoc a b c : (a ++ b) ++ c = a ++ (b ++ c).
Proof. induction a; simpl; f_equal; auto. Qed.

Lemma replace_lt x : CleanupSqlite.replace_first "<" "" ("<" ++ x) = x.
Proof.
  change ("<" ++ x) with (String "<" x). rewrite replace_first_cons.
  change (String "<" x) with ("<" ++ x) at 1. rewrite prefix_app. simpl.
  rewrite Nat.sub_0_r. apply substring_all.
Qed.

Lemma needle_spec l d :
  no_char "@" l = true -> no_char ">" l = true -> no_char "@" d = true -> no_char ">" d = true ->
  needle ("<" ++ l ++ "@" ++ d ++ ">") = d.
Proof.
  intros Hl1 Hl2 Hd1 Hd2. unfold needle. rewrite replace_lt.
  replace (l ++ "@" ++ d ++ ">") with ((l ++ "@" ++ d) ++ ">")
    by (rewrite !str_app_assoc; reflexivity).
  rewrite replace_gt.
  2: { rewrite !no_char_app, Hl2, Hd2. reflexivity. }
  change ("@" ++ d) with (String "@" d).
  rewrite split_no_char by exact Hl1. rewrite split_none by exact Hd1. reflexivity.
Qed.

Lemma fold_found (f : string -> bool) hs r0 :
  fold_left (fun (r : bool) (h : string) => if r then r else f h) hs r0 = r0 || existsb f hs.
Proof.
  revert r0. induction hs as [|h hs IH]; intros r0; simpl.
  - destruct r0; reflexivity.
  - rewrite IH. destruct r0; simpl; auto.
Qed.

(** For a message id [<l@d>], a polling round finds the message as soon
    as any fetched [Message-ID] header contains the domain [d]: the local
    part [l], the only random part of the id, is never compared, so any
    message whose id has the same domain counts as the one sent. *)
Theorem getMessage_matches_domain_only l d headers received :
  no_char "@" l = true -> no_char ">" l = true -> no_char "@" d = true -> no_char ">" d = true ->
  round headers ("<" ++ l ++ "@" ++ d ++ ">") received = received || existsb (includes d) headers /\
  (forall l' pre post, includes d (pre ++ "<" ++ l' ++ "@" ++ d ++ ">" ++ post) = true).
Proof.
  intros Hl1 Hl2 Hd1 Hd2. split.
  - unfold round. rewrite needle_spec by assumption. apply fold_found.
  - intros l' pre post.
    replace (pre ++ "<" ++ l' ++ "@" ++ d ++ ">" ++ post)
      with ((pre ++ "<" ++ l' ++ "@") ++ d ++ (">" ++ post))
      by (rewrite !str_app_assoc; reflexivity).
    apply includes_app.
Qed.

Lemma getMessage_matches_domain_only_witness :
  round ["Message-ID: <0aaaaaaaaa@forwardemail.net>"]
        ("<" ++ "k3x9q2m7za" ++ "@" ++ "forwardemail.net" ++ ">") false
  = false || existsb (includes "forwardemail.net") ["Message-ID: <0aaaaaaaaa@forwardemail.net>"].
Proof.
  exact (proj1 (getMessage_matches_domain_only "k3x9q2m7za" "forwardemail.net"
                  ["Message-ID: <0aaaaaaaaa@forwardemail.net>"] false
                  eq_refl eq_refl eq_refl eq_refl)).
Defined.

End GetMessage.
